(** * targ: a declarative command-line argument parser

    Shallow embedding of [targ.hpp] (the engine: [AbstractParser],
    [AbstractArgument], [PositionalArgument], [Option], [parse]) and of
    [unix.hpp] ([UnixParser]), together with the sample parser of
    [demo.cpp], and the properties of the parse loop proved about them.

    Conventions of the embedding.
    - [int] values ([argc], the token index [i], the count returned by
      [parseArg]) are in [Z].  The index only ever grows by 1 or 2 and stays
      within [0 .. argc] (lemma [loop_index_bounds]), so no 32-bit wrap-around
      can occur and none is written out.
    - [char **argv] is a [list string]; the window [&argv[i]] handed to
      [parseArg] is the suffix [skipn i argv] and its length is [argc - i].
    - A C++ object that is mutated in place is threaded through explicitly:
      [parseArg] returns the descriptor after the call next to what the call
      returned or threw.
    - [parser.args] holds pointers to the descriptors that are members of the
      parser object.  The descriptors are stored by value in the list [args],
      at the position at which their constructor registered them; a
      descriptor is identified by that position.
    - The back-pointer [AbstractArgument::parser] has static type
      [AbstractParser *]; what is read through it is the [AbstractParser]
      sub-object, which is passed explicitly to the functions that read it.
    - The [while]-like [for] loop of [parse] is run with fuel; the result
      [OutOfFuel] stands for a loop that is still running. *)

From Stdlib Require Import String Ascii List ZArith Lia Bool.
Import ListNotations.
Local Open Scope string_scope.
Local Open Scope Z_scope.

(** ** std::string operations used by the source *)

(** [str.starts_with(pre)] *)
Fixpoint starts_with (str pre : string) {struct pre} : bool :=
  match pre with
  | EmptyString => true
  | String c pre' =>
      match str with
      | EmptyString => false
      | String d str' => Ascii.eqb d c && starts_with str' pre'
      end
  end.

(** [str[n]] for [n <= str.size()]: the character at [n], and the null
    character at [n = str.size()].  The source only evaluates it behind
    [starts_with], which gives [n <= str.size()]. *)
Definition char_at (str : string) (n : nat) : ascii :=
  match String.get n str with
  | Some c => c
  | None => Ascii.zero
  end.

(** [str.substr(pos)] for [pos <= str.size()] (again guarded by
    [starts_with] in the source). *)
Fixpoint substr (str : string) (pos : nat) {struct pos} : string :=
  match pos with
  | O => str
  | S pos' =>
      match str with
      | EmptyString => EmptyString
      | String _ str' => substr str' pos'
      end
  end.

(** ** Tags *)

(** [struct any_tag {}], [struct option_tag : any_tag {}],
    [struct positional_tag : any_tag {}]: empty classes without virtual
    functions. *)
Inductive any_tag : Set := mk_any_tag.
Inductive option_tag : Set := mk_option_tag (base : any_tag).
Inductive positional_tag : Set := mk_positional_tag (base : any_tag).

(** Derived-to-base conversion, as in [const any_tag tag = option_tag();]:
    only the [any_tag] sub-object is copied. *)
Definition option_tag_to_any (t : option_tag) : any_tag :=
  match t with mk_option_tag b => b end.
Definition positional_tag_to_any (t : positional_tag) : any_tag :=
  match t with mk_positional_tag b => b end.

(** The [std::type_info] objects that [typeid] can yield for the tags. *)
Inductive type_info : Set :=
| ti_any_tag
| ti_option_tag
| ti_positional_tag.

Definition type_info_eqb (a b : type_info) : bool :=
  match a, b with
  | ti_any_tag, ti_any_tag => true
  | ti_option_tag, ti_option_tag => true
  | ti_positional_tag, ti_positional_tag => true
  | _, _ => false
  end.

(** [typeid(e)] for an lvalue [e] of type [const any_tag].  [any_tag] is not
    a polymorphic class, so [typeid] yields the static type of the
    expression, whatever object [e] designates. *)
Definition typeid_any_tag (e : any_tag) : type_info := ti_any_tag.

(** [typeid(positional_tag)] *)
Definition typeid_positional_tag : type_info := ti_positional_tag.

(** ** Errors *)

(** [class ParsingError : public std::runtime_error] *)
Inductive ParsingError : Set := mkParsingError (msg : string).

(** What a call gives back: a returned value or a thrown [ParsingError]. *)
Inductive completion (A : Type) : Type :=
| Return (a : A)
| Throw (e : ParsingError).
Arguments Return {A} a.
Arguments Throw {A} e.

(** ** The parser base class *)

Section Targ.

(** The value type of the scalar options and the element type of the vector
    and optional ones, with the conversion [static_cast<T>] from a token. *)
Variable T : Type.
Variable static_cast_T : string -> T.

(** The value slot [T value] of a descriptor.  The constructor records which
    branch of the [if constexpr] chain of [Option::parseArg] the declared
    type selects: [bool], [std::vector<_>], [std::optional<_>], or any
    other type. *)
Inductive slot : Type :=
| SBool (b : bool)
| SVector (v : list T)
| SOptional (o : option T)
| SScalar (x : T).

(** [template <typename T> class PositionalArgument : AbstractArgument].
    [tag] is the member declared in [AbstractArgument]; [pos_tag] the one
    declared in the class itself, which hides it. *)
Record PositionalArgument : Type := mkPositionalArgument {
  pos_help : string;
  pos_base_tag : any_tag;
  pos_name : string;
  pos_value : slot;
  pos_tag : any_tag
}.

(** [template <typename T> class Option : AbstractArgument] *)
Record Option : Type := mkOption {
  help : string;
  opt_base_tag : any_tag;
  shortName : ascii;
  longName : string;
  value : slot;
  opt_tag : any_tag
}.

(** An object seen through [AbstractArgument *]: one of the two classes of
    the source that derive from [AbstractArgument]. *)
Inductive AbstractArgument : Type :=
| Positional (p : PositionalArgument)
| Opt (o : Option).

(** [arg->tag] for [AbstractArgument *arg]: member lookup starts in
    [AbstractArgument], so this is the [tag] of the base class, not the
    member of the same name of the derived class. *)
Definition tag (arg : AbstractArgument) : any_tag :=
  match arg with
  | Positional p => pos_base_tag p
  | Opt o => opt_base_tag o
  end.

(** [class AbstractParser] (data members). *)
Record AbstractParser : Type := mkAbstractParser {
  prgmName : string;
  args : list AbstractArgument;
  shortOptPrefix : string;
  longOptPrefix : string
}.

(** The implicit default constructor: both prefix members are
    default-constructed [const std::string]s, [args] is empty.  No
    constructor of the source gives the prefixes of the base class another
    value. *)
Definition AbstractParser_ctor : AbstractParser :=
  {| prgmName := ""; args := []; shortOptPrefix := ""; longOptPrefix := "" |}.

(** [AbstractArgument::addToParser]: [parser->args.push_back(this)] *)
Definition addToParser (parser : AbstractParser) (this : AbstractArgument)
  : AbstractParser :=
  {| prgmName := prgmName parser;
     args := (args parser ++ [this])%list;
     shortOptPrefix := shortOptPrefix parser;
     longOptPrefix := longOptPrefix parser |}.

(** ** Option *)

(** [Option::doesStrMatchOption], reading the prefixes through the
    [AbstractParser *parser] back-pointer. *)
Definition doesStrMatchOption (parser : AbstractParser) (this : Option)
  (str : string) : bool :=
  (starts_with str (shortOptPrefix parser)
   && Ascii.eqb (char_at str (String.length (shortOptPrefix parser)))
                (shortName this))
  || (starts_with str (longOptPrefix parser)
      && String.eqb (substr str (String.length (longOptPrefix parser)))
                    (longName this)).

(** The three constructors.  A member that the constructor does not
    initialise ([shortName] in the second one, [value] in all of them) has
    an indeterminate value, which is an argument here. *)
Definition Option_short (s : ascii) (h : string) (value0 : slot) : Option :=
  {| help := h; opt_base_tag := mk_any_tag; shortName := s; longName := "";
     value := value0; opt_tag := option_tag_to_any (mk_option_tag mk_any_tag) |}.

Definition Option_long (l : string) (h : string) (shortName0 : ascii)
  (value0 : slot) : Option :=
  {| help := h; opt_base_tag := mk_any_tag; shortName := shortName0;
     longName := l; value := value0;
     opt_tag := option_tag_to_any (mk_option_tag mk_any_tag) |}.

Definition Option_short_long (s : ascii) (l : string) (h : string)
  (value0 : slot) : Option :=
  {| help := h; opt_base_tag := mk_any_tag; shortName := s; longName := l;
     value := value0; opt_tag := option_tag_to_any (mk_option_tag mk_any_tag) |}.

(** [Option<T> &operator=(const T &v)] *)
Definition Option_assign (this : Option) (v : slot) : Option :=
  {| help := help this; opt_base_tag := opt_base_tag this;
     shortName := shortName this; longName := longName this;
     value := v; opt_tag := opt_tag this |}.

(** [argv[n]] of a window.  The source reads [argv[0]] and, behind
    [argc > 1], [argv[1]], which exist whenever the window is not empty;
    only [parse] called with [argc = 0] reads an [argv[0]] that is no
    token, for the program name, and the empty string stands for it. *)
Definition argv_at (argv : list string) (n : nat) : string := nth n argv "".

(** [Option::parseArg]: the descriptor after the call, and the returned
    count or the exception. *)
Definition Option_parseArg (parser : AbstractParser) (this : Option)
  (argc : Z) (argv : list string) : Option * completion Z :=
  if doesStrMatchOption parser this (argv_at argv 0) then
    match value this with
    | SBool _ =>
        (* handle switches *)
        (Option_assign this (SBool true), Return 1)
    | SVector _ =>
        (* handle option with multiple args: empty branch *)
        (this, Return 0)
    | SOptional _ =>
        (* empty branch *)
        (this, Return 0)
    | SScalar _ =>
        (* default option type *)
        if 1 <? argc then
          (Option_assign this (SScalar (static_cast_T (argv_at argv 1))),
           Return 2)
        else
          (this,
           Throw (mkParsingError
                    ("Option " ++ longName this ++ " expects one argument!")))
    end
  else (this, Return 0).

(** [PositionalArgument::parseArg] *)
Definition PositionalArgument_parseArg (this : PositionalArgument)
  (argc : Z) (argv : list string) : PositionalArgument * completion Z :=
  (this, Return 0).

(** The virtual call [arg->parseArg(argc, argv)]. *)
Definition parseArg (parser : AbstractParser) (arg : AbstractArgument)
  (argc : Z) (argv : list string) : AbstractArgument * completion Z :=
  match arg with
  | Positional p =>
      let (p', r) := PositionalArgument_parseArg p argc argv in
      (Positional p', r)
  | Opt o =>
      let (o', r) := Option_parseArg parser o argc argv in
      (Opt o', r)
  end.

(** ** Classes derived from AbstractParser *)

(** An object of a class [T] derived from [AbstractParser]: the
    [AbstractParser] sub-object and the data members [D] the class adds. *)
Record Parser (D : Type) : Type := mkParser {
  base : AbstractParser;
  derived : D
}.
Arguments mkParser {D} base derived.
Arguments base {D} p.
Arguments derived {D} p.

(** The two virtual member functions of [AbstractParser] as a derived class
    overrides them.  In the source they read and write only members that
    the derived class declares, which is what the types say here;
    [shouldTest] writes nothing. *)
Record Hooks (D : Type) : Type := mkHooks {
  metaparser : D -> string -> bool * D;
  shouldTest : D -> AbstractArgument -> bool
}.
Arguments mkHooks {D} metaparser shouldTest.
Arguments metaparser {D} h this arg.
Arguments shouldTest {D} h this arg.

(** [AbstractParser::metaparser] and [AbstractParser::shouldTest], the
    defaults. *)
Definition AbstractParser_metaparser (this : unit) (arg : string)
  : bool * unit := (false, this).
Definition AbstractParser_shouldTest (this : unit) (arg : AbstractArgument)
  : bool := true.
Definition AbstractParser_hooks : Hooks unit :=
  mkHooks AbstractParser_metaparser AbstractParser_shouldTest.

(** *** UnixParser *)

(** The members [UnixParser] declares.  Its [shortOptPrefix] and
    [longOptPrefix] are new members that hide those of [AbstractParser];
    they do not initialise them. *)
Record UnixParser_members : Type := mkUnixParser_members {
  parseOptions : bool;
  UnixParser_shortOptPrefix : string;
  UnixParser_longOptPrefix : string
}.

Definition UnixParser : Type := Parser UnixParser_members.

(** The implicit default constructor of [UnixParser]. *)
Definition UnixParser_ctor : UnixParser :=
  mkParser AbstractParser_ctor
    {| parseOptions := true;
       UnixParser_shortOptPrefix := "-";
       UnixParser_longOptPrefix := "--" |}.

(** [UnixParser::metaparser] *)
Definition UnixParser_metaparser (this : UnixParser_members) (arg : string)
  : bool * UnixParser_members :=
  if String.eqb arg "--" then
    (* Stop parsing options *)
    (true,
     {| parseOptions := false;
        UnixParser_shortOptPrefix := UnixParser_shortOptPrefix this;
        UnixParser_longOptPrefix := UnixParser_longOptPrefix this |})
  else (false, this).

(** [UnixParser::shouldTest] *)
Definition UnixParser_shouldTest (this : UnixParser_members)
  (arg : AbstractArgument) : bool :=
  if negb (parseOptions this)
     && type_info_eqb (typeid_any_tag (tag arg)) typeid_positional_tag
  then
    (* Don't parse options *)
    false
  else true.

Definition UnixParser_hooks : Hooks UnixParser_members :=
  mkHooks UnixParser_metaparser UnixParser_shouldTest.

(** ** The parse loop *)

Section Parse.

Variable D : Type.
Variable hooks : Hooks D.

(** What the loop does that the claims speak about: the calls of
    [metaparser] (with the index and the token) and of [parseArg] (with the
    position of the descriptor in [args] and the window). *)
Inductive event : Type :=
| EvMetaparser (i : Z) (arg : string)
| EvParseArg (k : nat) (argc : Z) (argv : list string).

Definition set_args (p : AbstractParser) (l : list AbstractArgument)
  : AbstractParser :=
  {| prgmName := prgmName p; args := l;
     shortOptPrefix := shortOptPrefix p; longOptPrefix := longOptPrefix p |}.

Definition set_prgmName (p : AbstractParser) (name : string)
  : AbstractParser :=
  {| prgmName := name; args := args p;
     shortOptPrefix := shortOptPrefix p; longOptPrefix := longOptPrefix p |}.

(** The inner loop [for (AbstractArgument *arg : parser.args)] from the
    descriptor at position [k] on: the events, the descriptors after it, and
    the count by which [i] is advanced (0 when the loop runs to its end
    without [break]) or the exception that leaves it. *)
Fixpoint scan (this : D) (parser : AbstractParser) (argc : Z)
  (argv : list string) (k : nat) (l : list AbstractArgument)
  : list event * (list AbstractArgument * completion Z) :=
  match l with
  | [] => ([], ([], Return 0))
  | arg :: rest =>
      if shouldTest hooks this arg then
        let (arg', r) := parseArg parser arg argc argv in
        match r with
        | Return argsConsumed =>
            if negb (argsConsumed =? 0) then
              (* An argument was parsed *)
              ([EvParseArg k argc argv], (arg' :: rest, Return argsConsumed))
            else
              let '(evs, (rest', r')) :=
                scan this parser argc argv (S k) rest in
              (EvParseArg k argc argv :: evs, (arg' :: rest', r'))
        | Throw e =>
            ([EvParseArg k argc argv], (arg' :: rest, Throw e))
        end
      else
        let '(evs, (rest', r')) := scan this parser argc argv (S k) rest in
        (evs, (arg :: rest', r'))
  end.

(** The state of the outer loop: the parser object and the index [i]. *)
Record loop_state : Type := mkLoopState {
  parser : Parser D;
  i : Z
}.

Inductive step_result : Type :=
| Continue (s : loop_state)
| Raise (e : ParsingError) (s : loop_state).

(** One iteration of [for (int i=0; i < argc; )], entered with [i < argc]. *)
Definition step (argc : Z) (argv : list string) (s : loop_state)
  : list event * step_result :=
  let arg := argv_at argv (Z.to_nat (i s)) in
  let (consumed, this') := metaparser hooks (derived (parser s)) arg in
  if consumed then
    (* metaparser parsed something; move on to next argument *)
    ([EvMetaparser (i s) arg],
     Continue (mkLoopState (mkParser (base (parser s)) this') (i s + 1)))
  else
    let '(evs, (args', r)) :=
      scan this' (base (parser s)) (argc - i s)
           (skipn (Z.to_nat (i s)) argv) 0 (args (base (parser s))) in
    let parser' := mkParser (set_args (base (parser s)) args') this' in
    match r with
    | Return argsConsumed =>
        (EvMetaparser (i s) arg :: evs,
         Continue (mkLoopState parser' (i s + argsConsumed)))
    | Throw e =>
        (EvMetaparser (i s) arg :: evs, Raise e (mkLoopState parser' (i s)))
    end.

(** How a run ends: [parse] returns the parser, a [ParsingError] leaves
    [parse] (with the state the loop had reached), or the fuel is used up
    with the loop still running. *)
Inductive run_result : Type :=
| Done (p : Parser D)
| Aborted (e : ParsingError) (s : loop_state)
| OutOfFuel (s : loop_state).

Fixpoint loop (fuel : nat) (argc : Z) (argv : list string) (s : loop_state)
  {struct fuel} : list event * run_result :=
  if i s <? argc then
    match fuel with
    | O => ([], OutOfFuel s)
    | S fuel' =>
        let (evs, r) := step argc argv s in
        match r with
        | Continue s' =>
            let (evs', r') := loop fuel' argc argv s' in
            ((evs ++ evs')%list, r')
        | Raise e s' => (evs, Aborted e s')
        end
    end
  else ([], Done (parser s)).

(** [template <typename T> T parse(int argc, char **argv)], where [parser0]
    is the default-constructed [T parser]. *)
Definition parse (fuel : nat) (parser0 : Parser D) (argc : Z)
  (argv : list string) : list event * run_result :=
  let parser1 :=
    mkParser (set_prgmName (base parser0) (argv_at argv 0)) (derived parser0) in
  loop fuel argc argv (mkLoopState parser1 0).

(** The parser object a run has reached. *)
Definition reached (r : run_result) : Parser D :=
  match r with
  | Done p => p
  | Aborted _ s => parser s
  | OutOfFuel s => parser s
  end.

End Parse.

End Targ.

Arguments SBool {T} b.
Arguments SVector {T} v.
Arguments SOptional {T} o.
Arguments SScalar {T} x.
Arguments Positional {T} p.
Arguments Opt {T} o.
Arguments mkParser {T D} base derived.
Arguments base {T D} p.
Arguments derived {T D} p.
Arguments mkHooks {T D} metaparser shouldTest.
Arguments metaparser {T D} h this arg.
Arguments shouldTest {T D} h this arg.
Arguments mkLoopState {T D} parser i.
Arguments parser {T D} l.
Arguments i {T D} l.
Arguments Continue {T D} s.
Arguments Raise {T D} e s.
Arguments step_result : clear implicits.
Arguments run_result : clear implicits.
Arguments loop_state : clear implicits.
Arguments Done {T D} p.
Arguments Aborted {T D} e s.
Arguments OutOfFuel {T D} s.
Arguments reached {T D} r.
Arguments help {T} o.
Arguments shortName {T} o.
Arguments longName {T} o.
Arguments value {T} o.
Arguments args {T} a.
Arguments prgmName {T} a.
Arguments shortOptPrefix {T} a.
Arguments longOptPrefix {T} a.
Arguments addToParser {T} parser this.
Arguments set_args {T} p l.
Arguments set_prgmName {T} p name.
Arguments doesStrMatchOption {T} parser this str.
Arguments Option_short {T} s h value0.
Arguments Option_long {T} l h shortName0 value0.
Arguments Option_short_long {T} s l h value0.
Arguments Option_assign {T} this v.
Arguments Option_parseArg {T} static_cast_T parser this argc argv.
Arguments PositionalArgument_parseArg {T} this argc argv.
Arguments parseArg {T} static_cast_T parser arg argc argv.
Arguments tag {T} arg.
Arguments UnixParser_shouldTest {T} this arg.
Arguments scan {T} static_cast_T {D} hooks this parser argc argv k l.
Arguments step {T} static_cast_T {D} hooks argc argv s.
Arguments loop {T} static_cast_T {D} hooks fuel argc argv s.
Arguments parse {T} static_cast_T {D} hooks fuel parser0 argc argv.

(** ** The sample parser of demo.cpp *)

Module Demo.

(** [static_cast<std::string>] of a token. *)
Definition to_string (s : string) : string := s.

(** [typedef Option<bool> Switch;] built with the short-name and the
    short-and-long-name constructors.  The constructors leave [value]
    uninitialised; [value0] is what the member holds. *)
Definition Switch_short (s : ascii) (h : string) (value0 : bool)
  : Option string :=
  Option_short s h (SBool value0).
Definition Switch_short_long (s : ascii) (l h : string) (value0 : bool)
  : Option string :=
  Option_short_long s l h (SBool value0).

Definition assemblyOut (value0 : bool) : Option string :=
  Switch_short "S" "Compile but do not assemble" value0.
Definition verbose (value0 : bool) : Option string :=
  Switch_short_long "v" "verbose" "Show verbose output" value0.
Definition lang : Option string :=
  Option_short "x" "Set the language" (SScalar "").
Definition arch (shortName0 : ascii) : Option string :=
  Option_long "arch" "Set the target architecture" shortName0
    (SScalar "").
Definition outFilePath : Option string :=
  Option_short_long "o" "output" "Set the output file" (SScalar "").
Definition multiple : Option string :=
  Option_short_long "m" "multiple" "multiple arguments" (SVector []).

(** [SampleParser::SampleParser()]: the members register themselves in
    declaration order, then the body assigns [outFilePath = "a.out"].  The
    arguments are the indeterminate values of the two switches and of the
    short name of [arch]. *)
Definition SampleParser_ctor (S0 v0 : bool) (arch0 : ascii) : UnixParser string :=
  let members :=
    [ Opt (assemblyOut S0);
      Opt (verbose v0);
      Opt lang;
      Opt (arch arch0);
      Opt (Option_assign outFilePath (SScalar "a.out"));
      Opt multiple ] in
  mkParser
    (fold_left addToParser members (base (UnixParser_ctor string)))
    (derived (UnixParser_ctor string)).

(** [targ::parse<SampleParser>(argc, argv)] *)
Definition main (fuel : nat) (S0 v0 : bool) (arch0 : ascii)
  (argv : list string) :=
  parse to_string (UnixParser_hooks string) fuel
    (SampleParser_ctor S0 v0 arch0) (Z.of_nat (List.length argv)) argv.

End Demo.

(** ** Notions used to state the properties *)

(** [l] with the element at position [k] replaced by [x]. *)
Fixpoint set_nth {A : Type} (k : nat) (x : A) (l : list A) : list A :=
  match l, k with
  | [], _ => []
  | _ :: rest, O => x :: rest
  | a :: rest, S k' => a :: set_nth k' x rest
  end.

(** The [parseArg] calls of a scan that goes through all of [l], whose
    first descriptor has position [k]: one for each descriptor that
    [shouldTest] lets through, in the order of [l]. *)
Fixpoint offered {T D : Type} (hooks : Hooks T D) (this : D) (argc : Z)
  (argv : list string) (k : nat) (l : list (AbstractArgument T))
  : list event :=
  match l with
  | [] => []
  | arg :: rest =>
      if shouldTest hooks this arg
      then EvParseArg k argc argv :: offered hooks this argc argv (S k) rest
      else offered hooks this argc argv (S k) rest
  end.

(** The value slot of the descriptor registered at position [k]. *)
Definition slot_at {T D : Type} (k : nat) (p : Parser T D) : option (slot T) :=
  match nth_error (args (base p)) k with
  | Some (Opt o) => Some (value o)
  | Some (Positional q) => Some (pos_value T q)
  | None => None
  end.

(** The first character of a string, the null character for the empty
    string: what [str[0]] reads. *)
Definition front (s : string) : ascii := char_at s 0.

(** The index a run has reached stays within [0 .. argc]. *)
Definition index_within {T D : Type} (argc : Z) (r : run_result T D) : Prop :=
  match r with
  | Done _ => True
  | Aborted _ s => 0 <= i s <= argc
  | OutOfFuel s => 0 <= i s <= argc
  end.

(** The descriptor registered at position [k] satisfies [Q]. *)
Definition holds_at {T D : Type} (Q : AbstractArgument T -> Prop) (k : nat)
  (p : Parser T D) : Prop :=
  exists a, nth_error (args (base p)) k = Some a /\ Q a.

(** The state a step leaves the loop in. *)
Definition state_after {T D : Type} (r : step_result T D) : loop_state T D :=
  match r with
  | Continue s => s
  | Raise _ s => s
  end.

(** The value slot [s'] has the declared type of [s], and the contents of
    [s] where the type is one whose branch of [parseArg] stores nothing. *)
Definition slot_kind_kept {T : Type} (s s' : slot T) : Prop :=
  match s, s' with
  | SBool _, SBool _ => True
  | SScalar _, SScalar _ => True
  | SVector v, SVector v' => v = v'
  | SOptional o, SOptional o' => o = o'
  | _, _ => False
  end.

(** [a'] is the descriptor [a] up to the contents of its value slot: the
    same class, help text, names and tags. *)
Definition same_identity {T : Type} (a a' : AbstractArgument T) : Prop :=
  match a, a' with
  | Positional p, Positional p' => p = p'
  | Opt o, Opt o' =>
      help o = help o' /\ shortName o = shortName o'
      /\ longName o = longName o' /\ tag (Opt o) = tag (Opt o')
      /\ slot_kind_kept (value o) (value o')
  | _, _ => False
  end.

(** What a well-formed call of the loop looks like, for a parser with
    [nargs] descriptors working on [argv]: [metaparser] receives the token
    at an index within [argv]; [parseArg] is called on a registered
    descriptor with a window that is a non-empty suffix of [argv] and with
    the number of tokens of that window as its count. *)
Definition event_wellformed (nargs : nat) (argv : list string) (ev : event)
  : Prop :=
  match ev with
  | EvMetaparser n tok =>
      0 <= n < Z.of_nat (List.length argv)
      /\ tok = argv_at argv (Z.to_nat n) /\ In tok argv
  | EvParseArg k c v =>
      (k < nargs)%nat /\ 1 <= c /\ c = Z.of_nat (List.length v)
      /\ exists n, (n < List.length argv)%nat /\ v = skipn n argv
  end.

(** The message of the only [ParsingError] the source throws. *)
Definition expects_one_argument {T : Type} (o : Option T) : ParsingError :=
  mkParsingError ("Option " ++ longName o ++ " expects one argument!").

(** * Properties *)

(** ** std::string operations *)

Lemma starts_with_app (pre rest : string) :
  starts_with (pre ++ rest) pre = true.
Proof.
  induction pre as [|c pre IH]; simpl; [reflexivity|].
  now rewrite Ascii.eqb_refl, IH.
Qed.

Lemma starts_with_inv (pre str : string) :
  starts_with str pre = true -> exists rest, str = pre ++ rest.
Proof.
  revert str; induction pre as [|c pre IH]; intros str H; simpl in *.
  - now exists str.
  - destruct str as [|d str]; [discriminate|].
    apply andb_true_iff in H as [Hc Hs].
    apply Ascii.eqb_eq in Hc; subst d.
    destruct (IH _ Hs) as [rest ->]. now exists rest.
Qed.

Lemma substr_app (pre rest : string) :
  substr (pre ++ rest) (String.length pre) = rest.
Proof. induction pre as [|c pre IH]; simpl; auto. Qed.

Lemma char_at_app (pre rest : string) :
  char_at (pre ++ rest) (String.length pre) = front rest.
Proof.
  unfold front, char_at.
  induction pre as [|c pre IH]; simpl; auto.
Qed.

(** What [doesStrMatchOption] decides: the token starts with the short
    prefix and the character right after it is the short name (whatever
    follows), or the token is the long prefix followed by the long name. *)
Lemma doesStrMatchOption_iff {T : Type} (parser : AbstractParser T)
  (this : Option T) (str : string) :
  doesStrMatchOption parser this str = true <->
  (exists rest, str = shortOptPrefix parser ++ rest
                /\ front rest = shortName this)
  \/ str = longOptPrefix parser ++ longName this.
Proof.
  unfold doesStrMatchOption. rewrite orb_true_iff, !andb_true_iff.
  split.
  - intros [[Hs Hc] | [Hs Hl]].
    + left. destruct (starts_with_inv _ _ Hs) as [rest ->].
      exists rest. split; [reflexivity|].
      rewrite char_at_app in Hc. now apply Ascii.eqb_eq in Hc.
    + right. destruct (starts_with_inv _ _ Hs) as [rest ->].
      rewrite substr_app in Hl. apply String.eqb_eq in Hl. now subst.
  - intros [[rest [-> Hc]] | ->].
    + left. split; [apply starts_with_app|].
      rewrite char_at_app. now apply Ascii.eqb_eq.
    + right. split; [apply starts_with_app|].
      rewrite substr_app. apply String.eqb_refl.
Qed.

(** [doesStrMatchOption] reads nothing of the parser but the two prefixes. *)
Lemma doesStrMatchOption_ext {T : Type} (p p' : AbstractParser T)
  (this : Option T) (str : string) :
  shortOptPrefix p = shortOptPrefix p' ->
  longOptPrefix p = longOptPrefix p' ->
  doesStrMatchOption p this str = doesStrMatchOption p' this str.
Proof. unfold doesStrMatchOption. now intros -> ->. Qed.

(** ** parseArg *)

Section ParseArgFacts.

Context {T : Type} (static_cast_T : string -> T).

Lemma Option_assign_same (this : Option T) :
  Option_assign this (value this) = this.
Proof. now destruct this. Qed.

Lemma parseArg_ext (p p' : AbstractParser T) (arg : AbstractArgument T)
  (argc : Z) (argv : list string) :
  shortOptPrefix p = shortOptPrefix p' ->
  longOptPrefix p = longOptPrefix p' ->
  parseArg static_cast_T p arg argc argv
  = parseArg static_cast_T p' arg argc argv.
Proof.
  intros Hs Hl. destruct arg as [q|o]; simpl; [reflexivity|].
  unfold Option_parseArg.
  now rewrite (doesStrMatchOption_ext p p' o _ Hs Hl).
Qed.

(** A descriptor whose flag is not the first token of the window declines
    and is left as it was. *)
Lemma parseArg_no_match (p : AbstractParser T) (o : Option T) (argc : Z)
  (argv : list string) :
  doesStrMatchOption p o (argv_at argv 0) = false ->
  parseArg static_cast_T p (Opt o) argc argv = (Opt o, Return 0).
Proof. intros H. simpl. unfold Option_parseArg. now rewrite H. Qed.

(** A call that returns 0 has not touched the descriptor. *)
Lemma parseArg_zero_unchanged (p : AbstractParser T)
  (arg : AbstractArgument T) (argc : Z) (argv : list string) :
  snd (parseArg static_cast_T p arg argc argv) = Return 0 ->
  fst (parseArg static_cast_T p arg argc argv) = arg.
Proof.
  destruct arg as [q|o]; simpl; [reflexivity|].
  unfold Option_parseArg.
  destruct (doesStrMatchOption p o (argv_at argv 0)); [|reflexivity].
  destruct (value o); simpl; try reflexivity; try discriminate.
  destruct (1 <? argc); simpl; discriminate.
Qed.

(** The counts [parseArg] returns: 0, 1, or 2 when the window has a second
    token. *)
Lemma parseArg_count (p : AbstractParser T) (arg : AbstractArgument T)
  (argc : Z) (argv : list string) (n : Z) :
  snd (parseArg static_cast_T p arg argc argv) = Return n ->
  n = 0 \/ n = 1 \/ (n = 2 /\ 1 < argc).
Proof.
  destruct arg as [q|o]; simpl.
  - intros [= <-]. now left.
  - unfold Option_parseArg.
    destruct (doesStrMatchOption p o (argv_at argv 0)).
    + destruct (value o); simpl; try (intros [= <-]; auto).
      destruct (1 <? argc) eqn:E; simpl; [|discriminate].
      intros [= <-]. right; right. split; [reflexivity|].
      now apply Z.ltb_lt.
    + intros [= <-]. now left.
Qed.

(** A switch that is already set stays as it is, whatever the window. *)
Lemma parseArg_switch_set (p : AbstractParser T) (o : Option T) (argc : Z)
  (argv : list string) :
  value o = SBool true ->
  fst (parseArg static_cast_T p (Opt o) argc argv) = Opt o.
Proof.
  intros Hv. simpl. unfold Option_parseArg.
  destruct (doesStrMatchOption p o (argv_at argv 0)); [|reflexivity].
  rewrite Hv. simpl. now rewrite <- Hv, Option_assign_same.
Qed.

End ParseArgFacts.

(** ** The scan over the descriptors *)

Section ScanFacts.

Context {T : Type} (static_cast_T : string -> T).
Context {D : Type} (hooks : Hooks T D).

Lemma set_nth_length {A : Type} (k : nat) (x : A) (l : list A) :
  List.length (set_nth k x l) = List.length l.
Proof.
  revert k; induction l as [|a l IH]; intros [|k]; simpl; auto.
Qed.

Lemma set_nth_same {A : Type} (k : nat) (x : A) (l : list A) :
  nth_error l k = Some x -> set_nth k x l = l.
Proof.
  revert k; induction l as [|a l IH]; intros [|k]; simpl; auto.
  - now intros [= ->].
  - intros H. now rewrite IH.
Qed.

Lemma nth_error_set_nth {A : Type} (k j : nat) (x : A) (l : list A) :
  nth_error (set_nth k x l) j
  = if Nat.eqb j k then match nth_error l k with
                        | Some _ => Some x
                        | None => None
                        end
    else nth_error l j.
Proof.
  revert k j; induction l as [|a l IH]; intros [|k] [|j]; simpl; auto.
  destruct (Nat.eqb j k); reflexivity.
Qed.

(** When every descriptor that is let through declines, the scan goes
    through the whole list, changes nothing and advances by 0. *)
Lemma scan_all_decline (this : D) (p : AbstractParser T) (argc : Z)
  (argv : list string) (l : list (AbstractArgument T)) :
  (forall b, In b l -> shouldTest hooks this b = true ->
             snd (parseArg static_cast_T p b argc argv) = Return 0) ->
  forall k,
    scan static_cast_T hooks this p argc argv k l
    = (offered hooks this argc argv k l, (l, Return 0)).
Proof.
  induction l as [|a l IH]; intros H k; simpl; [reflexivity|].
  assert (Hl : forall b, In b l -> shouldTest hooks this b = true ->
                 snd (parseArg static_cast_T p b argc argv) = Return 0)
    by (intros b Hb; apply H; now right).
  destruct (shouldTest hooks this a) eqn:Ha.
  - pose proof (H a (or_introl eq_refl) Ha) as H0.
    pose proof (parseArg_zero_unchanged static_cast_T p a argc argv H0) as H1.
    destruct (parseArg static_cast_T p a argc argv) as [a' r]; simpl in *.
    subst. simpl. now rewrite (IH Hl).
  - now rewrite (IH Hl).
Qed.

(** The first descriptor that is let through and does not decline decides
    the scan: what it returns or throws is the result, it is the only
    descriptor that has changed, and the calls made are those of the
    descriptors up to it. *)
Lemma scan_first_claimant (this : D) (p : AbstractParser T) (argc : Z)
  (argv : list string) (l : list (AbstractArgument T)) :
  forall (k0 k : nat) (a : AbstractArgument T),
    nth_error l k = Some a ->
    shouldTest hooks this a = true ->
    snd (parseArg static_cast_T p a argc argv) <> Return 0 ->
    (forall j b, (j < k)%nat -> nth_error l j = Some b ->
                 shouldTest hooks this b = true ->
                 snd (parseArg static_cast_T p b argc argv) = Return 0) ->
    scan static_cast_T hooks this p argc argv k0 l
    = (offered hooks this argc argv k0 (firstn (S k) l),
       (set_nth k (fst (parseArg static_cast_T p a argc argv)) l,
        snd (parseArg static_cast_T p a argc argv))).
Proof.
  induction l as [|b l IH]; intros k0 k a Hk Ha Hr Hbefore.
  - destruct k; discriminate.
  - destruct k as [|k]; simpl in Hk.
    + injection Hk as ->. simpl. rewrite Ha.
      destruct (parseArg static_cast_T p a argc argv) as [a' r]; simpl in *.
      destruct r as [n|e]; [|reflexivity].
      destruct (n =? 0) eqn:E; simpl; [|reflexivity].
      apply Z.eqb_eq in E. subst. now contradiction Hr.
    + assert (Hl : forall j c, (j < k)%nat -> nth_error l j = Some c ->
                     shouldTest hooks this c = true ->
                     snd (parseArg static_cast_T p c argc argv) = Return 0).
      { intros j c Hj Hc. apply (Hbefore (S j)); [lia|exact Hc]. }
      specialize (IH (S k0) k a Hk Ha Hr Hl).
      change (firstn (S (S k)) (b :: l)) with (b :: firstn (S k) l).
      cbn [scan offered set_nth].
      destruct (shouldTest hooks this b) eqn:Hb.
      * pose proof (Hbefore 0%nat b ltac:(lia) eq_refl Hb) as H0.
        pose proof (parseArg_zero_unchanged static_cast_T p b argc argv H0)
          as H1.
        destruct (parseArg static_cast_T p b argc argv) as [b' r];
          simpl in *.
        subst. simpl. now rewrite IH.
      * now rewrite IH.
Qed.

Lemma offered_index (this : D) (argc : Z) (argv : list string)
  (l : list (AbstractArgument T)) :
  forall k0 j c v,
    In (EvParseArg j c v) (offered hooks this argc argv k0 l) ->
    (k0 <= j < k0 + List.length l)%nat /\ c = argc /\ v = argv.
Proof.
  induction l as [|a l IH]; intros k0 j c v H; simpl in *; [easy|].
  destruct (shouldTest hooks this a).
  - destruct H as [H|H].
    + injection H as <- <- <-. repeat split; lia.
    + apply IH in H. repeat split; try easy; lia.
  - apply IH in H. repeat split; try easy; lia.
Qed.

Lemma offered_no_metaparser (this : D) (argc : Z) (argv : list string)
  (l : list (AbstractArgument T)) :
  forall k0 n s, ~ In (EvMetaparser n s) (offered hooks this argc argv k0 l).
Proof.
  induction l as [|a l IH]; intros k0 n s H; simpl in *; [easy|].
  destruct (shouldTest hooks this a).
  - destruct H as [H|H]; [discriminate|]. now apply IH in H.
  - now apply IH in H.
Qed.

End ScanFacts.

(** ** The outer loop *)

Section LoopFacts.

Context {T : Type} (static_cast_T : string -> T).
Context {D : Type} (hooks : Hooks T D).

(** After a scan, a descriptor is as it was or as its own [parseArg] left
    it. *)
Lemma scan_nth_error (this : D) (p : AbstractParser T) (argc : Z)
  (argv : list string) (l : list (AbstractArgument T)) :
  forall k0 j a,
    nth_error l j = Some a ->
    let l' := fst (snd (scan static_cast_T hooks this p argc argv k0 l)) in
    nth_error l' j = Some a
    \/ nth_error l' j = Some (fst (parseArg static_cast_T p a argc argv)).
Proof.
  induction l as [|b l IH]; intros k0 j a Hj; [destruct j; discriminate|].
  cbn [scan].
  destruct (shouldTest hooks this b).
  - destruct (parseArg static_cast_T p b argc argv) as [b' r] eqn:Eb.
    destruct r as [n|e].
    + destruct (negb (n =? 0)).
      * destruct j as [|j]; simpl in *.
        -- injection Hj as <-. right. now rewrite Eb.
        -- now left.
      * specialize (IH (S k0)).
        destruct (scan static_cast_T hooks this p argc argv (S k0) l)
          as [evs [rest' r']].
        destruct j as [|j]; simpl in *.
        -- injection Hj as <-. right. now rewrite Eb.
        -- now apply IH.
    + destruct j as [|j]; simpl in *.
      * injection Hj as <-. right. now rewrite Eb.
      * now left.
  - specialize (IH (S k0)).
    destruct (scan static_cast_T hooks this p argc argv (S k0) l)
      as [evs [rest' r']].
    destruct j as [|j]; simpl in *.
    + now left.
    + now apply IH.
Qed.

(** The count a scan advances by. *)
Lemma scan_count (this : D) (p : AbstractParser T) (argc : Z)
  (argv : list string) (l : list (AbstractArgument T)) :
  forall k0 n,
    snd (snd (scan static_cast_T hooks this p argc argv k0 l)) = Return n ->
    n = 0 \/ n = 1 \/ (n = 2 /\ 1 < argc).
Proof.
  induction l as [|b l IH]; intros k0 n; cbn [scan].
  - simpl. intros [= <-]. now left.
  - destruct (shouldTest hooks this b).
    + destruct (parseArg static_cast_T p b argc argv) as [b' r] eqn:Eb.
      destruct r as [m|e].
      * destruct (negb (m =? 0)).
        -- simpl. intros [= <-].
           apply (parseArg_count static_cast_T p b argc argv).
           now rewrite Eb.
        -- specialize (IH (S k0) n).
           destruct (scan static_cast_T hooks this p argc argv (S k0) l)
             as [evs [rest' r']].
           exact IH.
      * simpl. discriminate.
    + specialize (IH (S k0) n).
      destruct (scan static_cast_T hooks this p argc argv (S k0) l)
        as [evs [rest' r']].
      exact IH.
Qed.

(** A step moves the index forward, by at most what is left of [argv]; a
    step that throws leaves it where it was. *)
Lemma step_index (argc : Z) (argv : list string) (s : loop_state T D) :
  0 <= i s < argc ->
  match snd (step static_cast_T hooks argc argv s) with
  | Continue s' => i s <= i s' <= argc
  | Raise _ s' => i s' = i s
  end.
Proof.
  intros Hi. unfold step.
  destruct (metaparser hooks (derived (parser s))
              (argv_at argv (Z.to_nat (i s)))) as [consumed this'].
  destruct consumed; simpl; [lia|].
  pose proof (scan_count this' (base (parser s)) (argc - i s)
                (skipn (Z.to_nat (i s)) argv) (args (base (parser s))) 0%nat)
    as Hc.
  destruct (scan static_cast_T hooks this' (base (parser s)) (argc - i s)
              (skipn (Z.to_nat (i s)) argv) 0 (args (base (parser s))))
    as [evs [args' r]].
  destruct r as [n|e]; simpl in *; [|reflexivity].
  destruct (Hc n eq_refl) as [->|[->|[-> H]]]; lia.
Qed.

(** The index never leaves [0 .. argc]: the [int] arithmetic of the loop
    cannot overflow. *)
Lemma loop_index_bounds (argc : Z) (argv : list string) :
  forall fuel (s : loop_state T D),
    0 <= i s <= argc ->
    index_within argc (snd (loop static_cast_T hooks fuel argc argv s)).
Proof.
  induction fuel as [|fuel IH]; intros s Hi; simpl.
  - destruct (i s <? argc); simpl; [exact Hi|exact I].
  - destruct (i s <? argc) eqn:E; simpl; [|exact I].
    apply Z.ltb_lt in E.
    pose proof (step_index argc argv s ltac:(lia)) as Hs.
    destruct (step static_cast_T hooks argc argv s) as [evs r].
    destruct r as [s'|e s']; simpl in *.
    + specialize (IH s' ltac:(lia)).
      destruct (loop static_cast_T hooks fuel argc argv s') as [evs' r'].
      exact IH.
    + lia.
Qed.

(** A step touches neither the prefixes nor the program name. *)
Lemma step_base (argc : Z) (argv : list string) (s : loop_state T D) :
  let s' := state_after (snd (step static_cast_T hooks argc argv s)) in
  shortOptPrefix (base (parser s')) = shortOptPrefix (base (parser s))
  /\ longOptPrefix (base (parser s')) = longOptPrefix (base (parser s))
  /\ prgmName (base (parser s')) = prgmName (base (parser s)).
Proof.
  unfold step.
  destruct (metaparser hooks (derived (parser s))
              (argv_at argv (Z.to_nat (i s)))) as [consumed this'].
  destruct consumed; simpl; [auto|].
  destruct (scan static_cast_T hooks this' (base (parser s)) (argc - i s)
              (skipn (Z.to_nat (i s)) argv) 0 (args (base (parser s))))
    as [evs [args' r]].
  destruct r; simpl; auto.
Qed.

Section Frame.

(** A property [Q] of a descriptor that its own [parseArg] keeps, on every
    window of [argv] and under the prefixes [sp] and [lp], holds of the
    descriptor at position [k] all along the run. *)
Variable Q : AbstractArgument T -> Prop.
Variables sp lp : string.
Variable argv : list string.
Variable k : nat.

Hypothesis Q_kept :
  forall (p : AbstractParser T) (a : AbstractArgument T) (n : nat),
    shortOptPrefix p = sp -> longOptPrefix p = lp ->
    (n < List.length argv)%nat ->
    Q a ->
    Q (fst (parseArg static_cast_T p a
              (Z.of_nat (List.length argv) - Z.of_nat n) (skipn n argv))).

Lemma step_frame (s : loop_state T D) :
  0 <= i s < Z.of_nat (List.length argv) ->
  shortOptPrefix (base (parser s)) = sp ->
  longOptPrefix (base (parser s)) = lp ->
  holds_at Q k (parser s) ->
  holds_at Q k
    (parser (state_after
               (snd (step static_cast_T hooks (Z.of_nat (List.length argv))
                       argv s)))).
Proof.
  intros Hi Hsp Hlp [a [Ha HQ]]. unfold step.
  destruct (metaparser hooks (derived (parser s))
              (argv_at argv (Z.to_nat (i s)))) as [consumed this'].
  destruct consumed; simpl; [now exists a|].
  pose proof (scan_nth_error this' (base (parser s))
                (Z.of_nat (List.length argv) - i s)
                (skipn (Z.to_nat (i s)) argv) (args (base (parser s)))
                0%nat k a Ha) as Hn.
  destruct (scan static_cast_T hooks this' (base (parser s))
              (Z.of_nat (List.length argv) - i s)
              (skipn (Z.to_nat (i s)) argv) 0 (args (base (parser s))))
    as [evs [args' r]].
  simpl in Hn.
  assert (HQ' : Q (fst (parseArg static_cast_T (base (parser s)) a
                          (Z.of_nat (List.length argv) - i s)
                          (skipn (Z.to_nat (i s)) argv)))).
  { pose proof (Q_kept (base (parser s)) a (Z.to_nat (i s)) Hsp Hlp
                  ltac:(lia) HQ) as H.
    now rewrite Z2Nat.id in H by lia. }
  destruct r; simpl; destruct Hn as [Hn|Hn]; eexists; split; eauto.
Qed.

Lemma loop_frame :
  forall fuel (s : loop_state T D),
    0 <= i s ->
    shortOptPrefix (base (parser s)) = sp ->
    longOptPrefix (base (parser s)) = lp ->
    holds_at Q k (parser s) ->
    holds_at Q k
      (reached (snd (loop static_cast_T hooks fuel
                       (Z.of_nat (List.length argv)) argv s))).
Proof.
  induction fuel as [|fuel IH]; intros s Hi Hsp Hlp HQ; simpl.
  - destruct (i s <? _); simpl; exact HQ.
  - destruct (i s <? Z.of_nat (List.length argv)) eqn:E; simpl; [|exact HQ].
    apply Z.ltb_lt in E.
    pose proof (step_frame s ltac:(lia) Hsp Hlp HQ) as Hf.
    pose proof (step_base (Z.of_nat (List.length argv)) argv s)
      as [Hs [Hl _]].
    pose proof (step_index (Z.of_nat (List.length argv)) argv s ltac:(lia))
      as Hx.
    destruct (step static_cast_T hooks (Z.of_nat (List.length argv)) argv s)
      as [evs r].
    destruct r as [s'|e s']; simpl in *.
    + specialize (IH s' ltac:(lia) ltac:(congruence) ltac:(congruence) Hf).
      destruct (loop static_cast_T hooks fuel (Z.of_nat (List.length argv))
                  argv s') as [evs' r'].
      exact IH.
    + exact Hf.
Qed.

End Frame.

(** A step in which [metaparser] declines without changing the parser and
    every descriptor that is let through declines leaves the state as it
    was. *)
Lemma step_no_progress (argc : Z) (argv : list string) (s : loop_state T D) :
  metaparser hooks (derived (parser s)) (argv_at argv (Z.to_nat (i s)))
  = (false, derived (parser s)) ->
  (forall b, In b (args (base (parser s))) ->
     shouldTest hooks (derived (parser s)) b = true ->
     snd (parseArg static_cast_T (base (parser s)) b (argc - i s)
            (skipn (Z.to_nat (i s)) argv)) = Return 0) ->
  snd (step static_cast_T hooks argc argv s) = Continue s.
Proof.
  intros Hm Hd. unfold step. rewrite Hm.
  rewrite (scan_all_decline static_cast_T hooks _ _ _ _ _ Hd). simpl.
  destruct s as [[[name l sp lp] d] n]; simpl.
  now rewrite Z.add_0_r.
Qed.

End LoopFacts.

(** * The claims *)

(** ** Unrecognized tokens *)

(** C1.  The claim asks that a token which [metaparser] does not consume
    and which every eligible descriptor declines ends the parse with an
    error.  The loop does the opposite: the iteration leaves the index and
    the parser as they were, so the same token is offered again and again
    and [parse] neither returns nor throws, however many iterations it is
    given. *)
Theorem unrecognized_token_loops_forever {T : Type}
  (static_cast_T : string -> T) {D : Type} (hooks : Hooks T D)
  (argc : Z) (argv : list string) (s : loop_state T D) :
  i s < argc ->
  metaparser hooks (derived (parser s)) (argv_at argv (Z.to_nat (i s)))
  = (false, derived (parser s)) ->
  (forall b, In b (args (base (parser s))) ->
     shouldTest hooks (derived (parser s)) b = true ->
     snd (parseArg static_cast_T (base (parser s)) b (argc - i s)
            (skipn (Z.to_nat (i s)) argv)) = Return 0) ->
  forall fuel,
    snd (loop static_cast_T hooks fuel argc argv s) = OutOfFuel s.
Proof.
  intros Hi Hm Hd fuel.
  pose proof (step_no_progress static_cast_T hooks argc argv s Hm Hd) as Hs.
  apply Z.ltb_lt in Hi.
  induction fuel as [|fuel IH]; simpl; rewrite Hi; [reflexivity|].
  destruct (step static_cast_T hooks argc argv s) as [evs r].
  simpl in Hs; subst r.
  destruct (loop static_cast_T hooks fuel argc argv s) as [evs' r'].
  exact IH.
Qed.

(** The sample parser started as [./demo], without arguments: the program
    name matches no option, and seven iterations later the loop is where it
    began. *)
Lemma unrecognized_token_loops_forever_witness :
  snd (Demo.main 7 false false Ascii.zero ["./demo"])
  = OutOfFuel
      (mkLoopState
         (mkParser
            (set_prgmName
               (base (Demo.SampleParser_ctor false false Ascii.zero))
               "./demo")
            (derived (Demo.SampleParser_ctor false false Ascii.zero)))
         0).
Proof.
  unfold Demo.main, parse.
  apply (unrecognized_token_loops_forever Demo.to_string
           (UnixParser_hooks string) 1 ["./demo"]).
  - simpl. lia.
  - reflexivity.
  - intros b Hb _. simpl in Hb.
    repeat (destruct Hb as [<-|Hb]; [reflexivity|]).
    destruct Hb.
Defined.

(** ** Flag spellings *)

(** C2.  The claim asks that an option is recognized exactly by the short
    prefix followed by its short name or the long prefix followed by its
    long name, the prefixes of a [UnixParser] being [-] and [--].  The
    prefixes an [Option] reads are those of the [AbstractParser] sub-object,
    which are empty in every parser; the members [UnixParser] declares are
    not read.  So under the sample (Unix) parser the switch [verbose]
    ([v], [verbose]) recognizes neither [-v] nor [--verbose]; it recognizes
    the bare word [verbose], and, the short name being compared with one
    character only, any token that begins with [v]. *)
Theorem doesStrMatchOption_under_UnixParser :
  forall (S0 v0 : bool) (arch0 : ascii),
    let parser := base (Demo.SampleParser_ctor S0 v0 arch0) in
    shortOptPrefix parser = ""
    /\ longOptPrefix parser = ""
    /\ UnixParser_shortOptPrefix
         (derived (Demo.SampleParser_ctor S0 v0 arch0)) = "-"
    /\ UnixParser_longOptPrefix
         (derived (Demo.SampleParser_ctor S0 v0 arch0)) = "--"
    /\ doesStrMatchOption parser (Demo.verbose v0) "-v" = false
    /\ doesStrMatchOption parser (Demo.verbose v0) "--verbose" = false
    /\ doesStrMatchOption parser (Demo.verbose v0) "verbose" = true
    /\ doesStrMatchOption parser (Demo.verbose v0) "version" = true.
Proof. intros S0 v0 arch0. repeat split. Qed.

(** ** Scalar options *)

(** The first token of the window at [n] is the token at [n], a token of
    [argv]. *)
Lemma argv_at_skipn (argv : list string) (n : nat) :
  argv_at (skipn n argv) 0 = argv_at argv n.
Proof.
  unfold argv_at. revert n.
  induction argv as [|t argv IH]; intros [|n]; simpl; auto.
Qed.

Lemma argv_at_In (argv : list string) (n : nat) :
  (n < List.length argv)%nat -> In (argv_at argv n) argv.
Proof. intros H. unfold argv_at. now apply nth_In. Qed.

(** No token of [argv] is the flag of [o]: the descriptor is never touched,
    wherever the parse gets to. *)
Lemma parse_frame_no_match {T : Type} (static_cast_T : string -> T)
  {D : Type} (hooks : Hooks T D) (fuel : nat) (parser0 : Parser T D)
  (k : nat) (o : Option T) (argv : list string) :
  nth_error (args (base parser0)) k = Some (Opt o) ->
  (forall tok, In tok argv ->
     doesStrMatchOption (base parser0) o tok = false) ->
  nth_error
    (args (base (reached (snd (parse static_cast_T hooks fuel parser0
                                 (Z.of_nat (List.length argv)) argv))))) k
  = Some (Opt o).
Proof.
  intros Hk Hno. unfold parse.
  pose proof (loop_frame static_cast_T hooks (eq (Opt o))
                (shortOptPrefix (base parser0)) (longOptPrefix (base parser0))
                argv k) as HF.
  destruct (HF) with (fuel := fuel)
    (s := mkLoopState
            (mkParser (set_prgmName (base parser0) (argv_at argv 0))
               (derived parser0)) 0) as [a [Ha <-]].
  - intros p a n Hs Hl Hn <-.
    rewrite parseArg_no_match; [reflexivity|].
    rewrite argv_at_skipn.
    rewrite (doesStrMatchOption_ext p (base parser0)) by assumption.
    apply Hno. now apply argv_at_In.
  - simpl. lia.
  - reflexivity.
  - reflexivity.
  - exists (Opt o). split; [exact Hk|reflexivity].
  - exact Ha.
Qed.

(** C3.  A scalar option whose flag is the first token of the window:
    with a second token in the window, [parseArg] stores that token,
    converted, and returns 2; with the flag as the only token, it throws
    [ParsingError] and stores nothing.  And when no token of the input is
    the flag, the slot of the option (registered at any position [k]) holds
    its initial value wherever the parse gets to. *)
Theorem scalar_option_parseArg {T : Type} (static_cast_T : string -> T)
  (o : Option T) (x : T) :
  value o = SScalar x ->
  (forall parser argc argv,
      doesStrMatchOption parser o (argv_at argv 0) = true ->
      1 < argc ->
      parseArg static_cast_T parser (Opt o) argc argv
      = (Opt (Option_assign o (SScalar (static_cast_T (argv_at argv 1)))),
         Return 2))
  /\ (forall parser argc argv,
         doesStrMatchOption parser o (argv_at argv 0) = true ->
         argc <= 1 ->
         exists e, parseArg static_cast_T parser (Opt o) argc argv
                   = (Opt o, Throw e))
  /\ (forall (D : Type) (hooks : Hooks T D) fuel (parser0 : Parser T D) k
             argv,
         nth_error (args (base parser0)) k = Some (Opt o) ->
         (forall tok, In tok argv ->
            doesStrMatchOption (base parser0) o tok = false) ->
         slot_at k (reached (snd (parse static_cast_T hooks fuel parser0
                                    (Z.of_nat (List.length argv)) argv)))
         = Some (SScalar x)).
Proof.
  intros Hv. repeat split.
  - intros p argc argv Hm Hc. simpl. unfold Option_parseArg.
    rewrite Hm, Hv. apply Z.ltb_lt in Hc. now rewrite Hc.
  - intros p argc argv Hm Hc. simpl. unfold Option_parseArg.
    rewrite Hm, Hv. apply Z.ltb_ge in Hc. rewrite Hc. eauto.
  - intros D hooks fuel parser0 k argv Hk Hno. unfold slot_at.
    rewrite (parse_frame_no_match static_cast_T hooks fuel parser0 k o
               argv Hk Hno).
    now rewrite Hv.
Qed.

(** The option [outFilePath] of the sample parser, preset to [a.out]: the
    flag with a value, the flag alone, and an input without the flag. *)
Lemma scalar_option_parseArg_witness :
  let out := Option_assign Demo.outFilePath (SScalar "a.out") in
  let parser := base (Demo.SampleParser_ctor false false Ascii.zero) in
  parseArg Demo.to_string parser (Opt out) 2 ["output"; "out.bin"]
  = (Opt (Option_assign out (SScalar "out.bin")), Return 2)
  /\ (exists e, parseArg Demo.to_string parser (Opt out) 1 ["output"]
                = (Opt out, Throw e))
  /\ slot_at 4 (reached (snd (Demo.main 4 false false Ascii.zero
                                ["S"; "verbose"])))
     = Some (SScalar "a.out").
Proof.
  intros out parser.
  destruct (scalar_option_parseArg Demo.to_string out "a.out" eq_refl)
    as [Hvalue [Halone Hframe]].
  split; [|split].
  - apply (Hvalue parser 2 ["output"; "out.bin"]); [reflexivity|lia].
  - apply (Halone parser 1 ["output"]); [reflexivity|lia].
  - apply (Hframe UnixParser_members (UnixParser_hooks string) 4%nat
             (Demo.SampleParser_ctor false false Ascii.zero) 4%nat
             ["S"; "verbose"]); [reflexivity|].
    intros tok [<-|[<-|[]]]; reflexivity.
Defined.

(** ** The end-of-options marker *)

(** C4.  The claim asks that after [--] no [Option] descriptor is tested
    any more.  [UnixParser::shouldTest] compares [typeid(arg->tag)], which
    is the type [any_tag] for every descriptor, with [positional_tag]: the
    comparison never holds and [shouldTest] answers true for every
    descriptor in every mode.  In the sample parser, the switch [verbose]
    is still matched by a token that comes after [--]. *)
Theorem UnixParser_shouldTest_ignores_mode :
  (forall (T : Type) (this : UnixParser_members) (arg : AbstractArgument T),
      UnixParser_shouldTest this arg = true)
  /\ (forall S0 arch0,
         exists p,
           snd (Demo.main 3 S0 false arch0 ["--"; "verbose"]) = Done p
           /\ parseOptions (derived p) = false
           /\ slot_at 1 p = Some (SBool true)).
Proof.
  split.
  - intros T this arg. unfold UnixParser_shouldTest.
    now rewrite andb_false_r.
  - intros S0 arch0. eexists. repeat split.
Qed.

(** ** Vector options *)

(** C5.  The claim asks that a vector option whose flag matches consumes
    the flag and the tokens that follow.  The branch of [parseArg] for
    vector types is empty: the call returns 0, which is the answer of a
    descriptor that does not match, and stores nothing. *)
Theorem vector_option_parseArg {T : Type} (static_cast_T : string -> T)
  (parser : AbstractParser T) (o : Option T) (v : list T) (argc : Z)
  (argv : list string) :
  value o = SVector v ->
  parseArg static_cast_T parser (Opt o) argc argv = (Opt o, Return 0).
Proof.
  intros Hv. simpl. unfold Option_parseArg. rewrite Hv.
  now destruct (doesStrMatchOption parser o (argv_at argv 0)).
Qed.

(** The option [multiple] of the sample parser on [multiple a b]: the flag
    matches and nothing is consumed. *)
Lemma vector_option_parseArg_witness :
  let parser := base (Demo.SampleParser_ctor false false Ascii.zero) in
  doesStrMatchOption parser Demo.multiple "multiple" = true
  /\ parseArg Demo.to_string parser (Opt Demo.multiple) 3
       ["multiple"; "a"; "b"]
     = (Opt Demo.multiple, Return 0).
Proof.
  intros parser. split; [reflexivity|].
  apply (vector_option_parseArg Demo.to_string parser Demo.multiple []).
  reflexivity.
Defined.

(** ** Positional arguments *)

(** C6, as stated, fails: a positional argument that the Unix parser lets
    through and that is offered the window [input.c] does not return a
    positive count. *)
Lemma positional_parseArg_counterexample :
  let file :=
    {| pos_help := ""; pos_base_tag := mk_any_tag; pos_name := "file";
       pos_value := SScalar "";
       pos_tag := positional_tag_to_any (mk_positional_tag mk_any_tag) |} in
  UnixParser_shouldTest (derived (UnixParser_ctor string)) (Positional file)
  = true
  /\ ~ (exists n,
          0 < n
          /\ snd (parseArg Demo.to_string (base (UnixParser_ctor string))
                    (Positional file) 1 ["input.c"]) = Return n).
Proof.
  intros file. split; [reflexivity|].
  intros [n [Hn H]]. simpl in H. injection H as <-. lia.
Qed.

(** C6, amended.  [PositionalArgument::parseArg] returns 0 on every window
    and leaves the value slot as it was: consuming positional tokens is not
    implemented. *)
Theorem positional_parseArg_returns_zero {T : Type}
  (static_cast_T : string -> T) (parser : AbstractParser T)
  (p : PositionalArgument T) (argc : Z) (argv : list string) :
  parseArg static_cast_T parser (Positional p) argc argv
  = (Positional p, Return 0).
Proof. reflexivity. Qed.

(** ** Precedence by declaration order *)

(** The call on the descriptor at position [k] is among those of a scan
    that gets as far as [k]. *)
Lemma offered_claimant {T D : Type} (hooks : Hooks T D) (this : D)
  (argc : Z) (argv : list string) (l : list (AbstractArgument T)) :
  forall k0 k a,
    nth_error l k = Some a ->
    shouldTest hooks this a = true ->
    In (EvParseArg (k0 + k) argc argv)
       (offered hooks this argc argv k0 (firstn (S k) l)).
Proof.
  induction l as [|b l IH]; intros k0 k a Hk Ha.
  - destruct k; discriminate.
  - destruct k as [|k]; simpl in Hk.
    + injection Hk as ->. simpl. rewrite Ha. left.
      now rewrite Nat.add_0_r.
    + change (firstn (S (S k)) (b :: l)) with (b :: firstn (S k) l).
      cbn [offered].
      specialize (IH (S k0) k a Hk Ha).
      replace (S k0 + k)%nat with (k0 + S k)%nat in IH by lia.
      destruct (shouldTest hooks this b); [right|]; exact IH.
Qed.

(** C7, as stated, fails: with a scalar option [v] registered before two
    switches [v], on the single token [v] both switches are eligible and
    each would return 1, but the scalar option, asked first, throws; the
    parse aborts and the result of neither switch is applied. *)
Lemma earlier_thrower_counterexample :
  let first := Option_short "v" "a scalar v" (SScalar "") in
  let members :=
    [Opt first; Opt (Demo.verbose false);
     Opt (Option_short "v" "another v" (SBool false))] in
  let parser0 :=
    mkParser (fold_left addToParser members (base (UnixParser_ctor string)))
      (derived (UnixParser_ctor string)) in
  (forall b, In b members ->
     shouldTest (UnixParser_hooks string) (derived parser0) b = true)
  /\ snd (parseArg Demo.to_string (base parser0) (Opt (Demo.verbose false))
            1 ["v"]) = Return 1
  /\ snd (parseArg Demo.to_string (base parser0)
            (Opt (Option_short "v" "another v" (SBool false))) 1 ["v"])
     = Return 1
  /\ exists s',
      snd (step Demo.to_string (UnixParser_hooks string) 1 ["v"]
             (mkLoopState parser0 0))
      = Raise (expects_one_argument first) s'
      /\ i s' = 0
      /\ slot_at 1 (parser s') = Some (SBool false)
      /\ slot_at 1 (parser s') <> Some (SBool true)
      /\ slot_at 2 (parser s') = Some (SBool false)
      /\ exists s'',
          snd (parse Demo.to_string (UnixParser_hooks string) 2 parser0 1
                 ["v"])
          = Aborted (expects_one_argument first) s''
          /\ slot_at 1 (parser s'') = Some (SBool false)
          /\ slot_at 2 (parser s'') = Some (SBool false).
Proof.
  intros first members parser0.
  split; [intros b _; reflexivity|].
  split; [reflexivity|]. split; [reflexivity|].
  eexists. split; [reflexivity|].
  split; [reflexivity|]. split; [reflexivity|].
  split; [discriminate|]. split; [reflexivity|].
  eexists. split; [reflexivity|]. split; reflexivity.
Qed.

(** A call that throws has not touched the descriptor. *)
Lemma parseArg_throw_unchanged {T : Type} (static_cast_T : string -> T)
  (p : AbstractParser T) (a : AbstractArgument T) (argc : Z)
  (argv : list string) (e : ParsingError) :
  snd (parseArg static_cast_T p a argc argv) = Throw e ->
  fst (parseArg static_cast_T p a argc argv) = a.
Proof.
  destruct a as [q|o]; simpl; [reflexivity|].
  unfold Option_parseArg.
  destruct (doesStrMatchOption p o (argv_at argv 0)); [|reflexivity].
  destruct (value o); simpl; try discriminate.
  destruct (1 <? argc); simpl; [discriminate|reflexivity].
Qed.

(** C7, amended.  At a token that [metaparser] does not consume, let the
    descriptor registered at position [k] be eligible and not decline the
    window (it returns a count other than 0, or it throws), the eligible
    descriptors registered before it declining.  Then that descriptor
    decides the iteration.  If it returns [n <> 0], its result is the one
    applied: the index advances by [n], position [k] of [args] holds the
    descriptor as its [parseArg] left it and every other position is as
    before.  If it throws, the iteration leaves with that [ParsingError],
    the index where it was and no descriptor changed.  Either way
    [parseArg] has been called on it and on no descriptor registered after
    it, whatever those would have returned. *)
Theorem first_claimant_wins {T : Type} (static_cast_T : string -> T)
  {D : Type} (hooks : Hooks T D) (argc : Z) (argv : list string)
  (s : loop_state T D) (this' : D) (k : nat) (a a' : AbstractArgument T)
  (r : completion Z) :
  metaparser hooks (derived (parser s)) (argv_at argv (Z.to_nat (i s)))
  = (false, this') ->
  nth_error (args (base (parser s))) k = Some a ->
  shouldTest hooks this' a = true ->
  parseArg static_cast_T (base (parser s)) a (argc - i s)
    (skipn (Z.to_nat (i s)) argv) = (a', r) ->
  r <> Return 0 ->
  (forall j b, (j < k)%nat ->
     nth_error (args (base (parser s))) j = Some b ->
     shouldTest hooks this' b = true ->
     snd (parseArg static_cast_T (base (parser s)) b (argc - i s)
            (skipn (Z.to_nat (i s)) argv)) = Return 0) ->
  exists evs s',
    step static_cast_T hooks argc argv s
    = (EvMetaparser (i s) (argv_at argv (Z.to_nat (i s))) :: evs,
       match r with
       | Return _ => Continue s'
       | Throw e => Raise e s'
       end)
    /\ i s' = match r with
              | Return n => i s + n
              | Throw _ => i s
              end
    /\ args (base (parser s')) = set_nth k a' (args (base (parser s)))
    /\ nth_error (args (base (parser s'))) k = Some a'
    /\ slot_at k (parser s')
       = match a' with
         | Opt o => Some (value o)
         | Positional q => Some (pos_value T q)
         end
    /\ (forall j, j <> k ->
          nth_error (args (base (parser s'))) j
          = nth_error (args (base (parser s))) j)
    /\ (forall e, r = Throw e ->
          args (base (parser s')) = args (base (parser s)))
    /\ derived (parser s') = this'
    /\ In (EvParseArg k (argc - i s) (skipn (Z.to_nat (i s)) argv)) evs
    /\ (forall j c v, In (EvParseArg j c v) evs -> (j <= k)%nat).
Proof.
  intros Hm Hk Ha Hp Hn Hbefore.
  assert (Hr : snd (parseArg static_cast_T (base (parser s)) a (argc - i s)
                      (skipn (Z.to_nat (i s)) argv)) <> Return 0)
    by (rewrite Hp; exact Hn).
  pose proof (scan_first_claimant static_cast_T hooks this' (base (parser s))
                (argc - i s) (skipn (Z.to_nat (i s)) argv)
                (args (base (parser s))) 0%nat k a Hk Ha Hr Hbefore) as Hscan.
  rewrite Hp in Hscan. simpl in Hscan.
  exists (offered hooks this' (argc - i s) (skipn (Z.to_nat (i s)) argv) 0
            (firstn (S k) (args (base (parser s))))).
  exists (mkLoopState
            (mkParser
               (set_args (base (parser s))
                  (set_nth k a' (args (base (parser s)))))
               this')
            match r with
            | Return n => i s + n
            | Throw _ => i s
            end).
  assert (Hnth : nth_error (set_nth k a' (args (base (parser s)))) k
                 = Some a')
    by (now rewrite nth_error_set_nth, Nat.eqb_refl, Hk).
  split; [|split; [|split; [|split; [|split; [|split; [|split;
    [|split; [|split]]]]]]]].
  - unfold step. rewrite Hm, Hscan. now destruct r.
  - reflexivity.
  - reflexivity.
  - exact Hnth.
  - unfold slot_at. cbn [parser base args set_args]. rewrite Hnth.
    now destruct a'.
  - intros j Hj. cbn [parser base args set_args].
    rewrite nth_error_set_nth. apply Nat.eqb_neq in Hj. now rewrite Hj.
  - intros e He. cbn [parser base args set_args].
    apply set_nth_same. rewrite Hk. f_equal.
    pose proof (parseArg_throw_unchanged static_cast_T (base (parser s)) a
                  (argc - i s) (skipn (Z.to_nat (i s)) argv) e) as Ht.
    rewrite Hp in Ht. simpl in Ht. subst r.
    now rewrite (Ht eq_refl).
  - reflexivity.
  - apply (offered_claimant hooks this' (argc - i s)
             (skipn (Z.to_nat (i s)) argv) (args (base (parser s))) 0%nat k a
             Hk Ha).
  - intros j c v Hj. apply offered_index in Hj as [Hj _].
    rewrite length_firstn in Hj. lia.
Qed.

(** Two descriptors with the short name [v], registered after the switch
    [S]: on [v x] the switch registered first takes the token and the
    scalar option registered after it, which would have taken two tokens,
    is not called.  And with the scalar option registered before the
    switch, on [v] alone: the scalar option throws and the switch, which
    would have taken the token, is not called. *)
Lemma first_claimant_wins_witness :
  let second := Option_short "v" "a second v" (SScalar "") in
  let parser0 :=
    mkParser
      (fold_left addToParser
         [Opt (Demo.assemblyOut false); Opt (Demo.verbose false); Opt second]
         (base (UnixParser_ctor string)))
      (derived (UnixParser_ctor string)) in
  let parser1 :=
    mkParser
      (fold_left addToParser
         [Opt (Demo.assemblyOut false); Opt second; Opt (Demo.verbose false)]
         (base (UnixParser_ctor string)))
      (derived (UnixParser_ctor string)) in
  (snd (parseArg Demo.to_string (base parser0) (Opt second) 2 ["v"; "x"])
   = Return 2
   /\ exists evs s',
       step Demo.to_string (UnixParser_hooks string) 2 ["v"; "x"]
         (mkLoopState parser0 0)
       = (EvMetaparser 0 "v" :: evs, Continue s')
       /\ i s' = 0 + 1
       /\ slot_at 1 (parser s') = Some (SBool true)
       /\ slot_at 2 (parser s') = Some (SScalar "")
       /\ (forall j c v, In (EvParseArg j c v) evs -> (j <= 1)%nat))
  /\ (snd (parseArg Demo.to_string (base parser1) (Opt (Demo.verbose false))
             1 ["v"]) = Return 1
      /\ exists evs s',
          step Demo.to_string (UnixParser_hooks string) 1 ["v"]
            (mkLoopState parser1 0)
          = (EvMetaparser 0 "v" :: evs,
             Raise (expects_one_argument second) s')
          /\ i s' = 0
          /\ slot_at 2 (parser s') = Some (SBool false)
          /\ (forall j c v, In (EvParseArg j c v) evs -> (j <= 1)%nat)).
Proof.
  intros second parser0 parser1. split.
  - split; [reflexivity|].
    destruct (first_claimant_wins Demo.to_string (UnixParser_hooks string) 2
                ["v"; "x"] (mkLoopState parser0 0) (derived parser0) 1%nat
                (Opt (Demo.verbose false)) (Opt (Demo.verbose true))
                (Return 1))
      as [evs [s' [Hstep [Hi [_ [_ [Hslot [Hothers [_ [_ [_ Hcalls]]]]]]]]]]].
    + reflexivity.
    + reflexivity.
    + reflexivity.
    + reflexivity.
    + discriminate.
    + intros j b Hj Hb _. destruct j as [|j]; [|lia].
      injection Hb as <-. reflexivity.
    + exists evs, s'. split; [exact Hstep|]. split; [exact Hi|].
      split; [exact Hslot|]. split; [|exact Hcalls].
      unfold slot_at. rewrite (Hothers 2%nat); [reflexivity|lia].
  - split; [reflexivity|].
    destruct (first_claimant_wins Demo.to_string (UnixParser_hooks string) 1
                ["v"] (mkLoopState parser1 0) (derived parser1) 1%nat
                (Opt second) (Opt second)
                (Throw (expects_one_argument second)))
      as [evs [s' [Hstep [Hi [_ [_ [_ [Hothers [_ [_ [_ Hcalls]]]]]]]]]]].
    + reflexivity.
    + reflexivity.
    + reflexivity.
    + reflexivity.
    + discriminate.
    + intros j b Hj Hb _. destruct j as [|j]; [|lia].
      injection Hb as <-. reflexivity.
    + exists evs, s'. split; [exact Hstep|]. split; [exact Hi|].
      split; [|exact Hcalls].
      unfold slot_at. rewrite (Hothers 2%nat); [reflexivity|lia].
Defined.

(** ** Meta-arguments *)

(** C8.  When [metaparser] consumes the current token, the iteration
    consists of that call alone: no [parseArg] is called, the
    [AbstractParser] part of the parser, and with it every descriptor and
    its slot, is as it was, and the index has moved on by one. *)
Theorem metaparser_token_skips_descriptors {T : Type}
  (static_cast_T : string -> T) {D : Type} (hooks : Hooks T D) (argc : Z)
  (argv : list string) (s : loop_state T D) (this' : D) :
  metaparser hooks (derived (parser s)) (argv_at argv (Z.to_nat (i s)))
  = (true, this') ->
  exists evs s',
    step static_cast_T hooks argc argv s = (evs, Continue s')
    /\ evs = [EvMetaparser (i s) (argv_at argv (Z.to_nat (i s)))]
    /\ (forall k c v, ~ In (EvParseArg k c v) evs)
    /\ i s' = i s + 1
    /\ base (parser s') = base (parser s)
    /\ (forall k, slot_at k (parser s') = slot_at k (parser s))
    /\ derived (parser s') = this'.
Proof.
  intros Hm. unfold step. rewrite Hm.
  eexists; eexists; split; [reflexivity|].
  repeat split.
  intros k c v [H|[]]. discriminate.
Qed.

(** The sample parser at the token [--] of [S -- v]. *)
Lemma metaparser_token_skips_descriptors_witness :
  let parser0 := Demo.SampleParser_ctor true false Ascii.zero in
  let s := mkLoopState parser0 1 in
  exists evs s',
    step Demo.to_string (UnixParser_hooks string) 3 ["S"; "--"; "v"] s
    = (evs, Continue s')
    /\ evs = [EvMetaparser 1 "--"]
    /\ (forall k c v, ~ In (EvParseArg k c v) evs)
    /\ i s' = 1 + 1
    /\ base (parser s') = base parser0
    /\ (forall k, slot_at k (parser s') = slot_at k parser0)
    /\ derived (parser s')
       = {| parseOptions := false;
            UnixParser_shortOptPrefix := "-";
            UnixParser_longOptPrefix := "--" |}.
Proof.
  intros parser0 s.
  apply (metaparser_token_skips_descriptors Demo.to_string
           (UnixParser_hooks string) 3 ["S"; "--"; "v"] s).
  reflexivity.
Defined.

(** ** Switches *)

(** C9, as stated, fails: on [o S] the sample parser returns with the
    switch [assemblyOut] still false, although the token [S] of the input
    matches it.  The token was consumed as the value of [outFilePath]. *)
Lemma switch_token_as_value_counterexample :
  let parser0 := Demo.SampleParser_ctor false false Ascii.zero in
  In "S" ["o"; "S"]
  /\ doesStrMatchOption (base parser0) (Demo.assemblyOut false) "S" = true
  /\ exists p,
      snd (Demo.main 2 false false Ascii.zero ["o"; "S"]) = Done p
      /\ slot_at 0 p = Some (SBool false)
      /\ slot_at 0 p <> Some (SBool true)
      /\ slot_at 4 p = Some (SScalar "S").
Proof.
  intros parser0. split; [simpl; auto|]. split; [reflexivity|].
  eexists. split; [reflexivity|].
  repeat split. discriminate.
Qed.

(** A switch that is set stays set wherever the run gets to. *)
Lemma loop_switch_stays_set {T : Type} (static_cast_T : string -> T)
  {D : Type} (hooks : Hooks T D) (fuel : nat) (argv : list string)
  (s : loop_state T D) (k : nat) (o : Option T) :
  0 <= i s ->
  nth_error (args (base (parser s))) k = Some (Opt o) ->
  value o = SBool true ->
  nth_error
    (args (base (reached (snd (loop static_cast_T hooks fuel
                                 (Z.of_nat (List.length argv)) argv s))))) k
  = Some (Opt o).
Proof.
  intros Hi Hk Hv.
  destruct (loop_frame static_cast_T hooks (eq (Opt o))
              (shortOptPrefix (base (parser s)))
              (longOptPrefix (base (parser s))) argv k) with
    (fuel := fuel) (s := s) as [a [Ha <-]]; auto.
  - intros p a n _ _ _ <-. now rewrite parseArg_switch_set.
  - now exists (Opt o).
Qed.

(** C9, amended.  A switch holding [b] (false by default): when no token
    of the input matches it, its slot holds [b] wherever the parse gets
    to; its [parseArg], called on a window whose first token matches, sets
    the slot to true and returns 1, and it throws on no window; this is
    what an iteration of the loop does at a matching token that
    [metaparser] does not consume and that no eligible descriptor
    registered earlier claims, the index moving on by one; and once set,
    the slot is true wherever the rest of the parse gets to. *)
Theorem switch_parseArg {T : Type} (static_cast_T : string -> T)
  (o : Option T) (b : bool) :
  value o = SBool b ->
  (forall (D : Type) (hooks : Hooks T D) fuel (parser0 : Parser T D) k argv,
      nth_error (args (base parser0)) k = Some (Opt o) ->
      (forall tok, In tok argv ->
         doesStrMatchOption (base parser0) o tok = false) ->
      slot_at k (reached (snd (parse static_cast_T hooks fuel parser0
                                 (Z.of_nat (List.length argv)) argv)))
      = Some (SBool b))
  /\ (forall parser argc argv,
         doesStrMatchOption parser o (argv_at argv 0) = true ->
         parseArg static_cast_T parser (Opt o) argc argv
         = (Opt (Option_assign o (SBool true)), Return 1))
  /\ (forall parser argc argv e,
         snd (parseArg static_cast_T parser (Opt o) argc argv) <> Throw e)
  /\ (forall (D : Type) (hooks : Hooks T D) argc argv (s : loop_state T D)
             this' k,
         metaparser hooks (derived (parser s))
           (argv_at argv (Z.to_nat (i s))) = (false, this') ->
         nth_error (args (base (parser s))) k = Some (Opt o) ->
         shouldTest hooks this' (Opt o) = true ->
         doesStrMatchOption (base (parser s)) o
           (argv_at argv (Z.to_nat (i s))) = true ->
         (forall j c, (j < k)%nat ->
            nth_error (args (base (parser s))) j = Some c ->
            shouldTest hooks this' c = true ->
            snd (parseArg static_cast_T (base (parser s)) c (argc - i s)
                   (skipn (Z.to_nat (i s)) argv)) = Return 0) ->
         exists evs s',
           step static_cast_T hooks argc argv s = (evs, Continue s')
           /\ i s' = i s + 1
           /\ slot_at k (parser s') = Some (SBool true))
  /\ (forall (D : Type) (hooks : Hooks T D) fuel argv (s : loop_state T D) k,
         0 <= i s ->
         nth_error (args (base (parser s))) k
         = Some (Opt (Option_assign o (SBool true))) ->
         slot_at k (reached (snd (loop static_cast_T hooks fuel
                                    (Z.of_nat (List.length argv)) argv s)))
         = Some (SBool true)).
Proof.
  intros Hv.
  assert (Hset : forall parser argc argv,
             doesStrMatchOption parser o (argv_at argv 0) = true ->
             parseArg static_cast_T parser (Opt o) argc argv
             = (Opt (Option_assign o (SBool true)), Return 1)).
  { intros p argc argv Hm. simpl. unfold Option_parseArg.
    now rewrite Hm, Hv. }
  split; [|split; [exact Hset|split; [|split]]].
  - intros D hooks fuel parser0 k argv Hk Hno. unfold slot_at.
    rewrite (parse_frame_no_match static_cast_T hooks fuel parser0 k o
               argv Hk Hno).
    now rewrite Hv.
  - intros p argc argv e. simpl. unfold Option_parseArg.
    destruct (doesStrMatchOption p o (argv_at argv 0)); [|discriminate].
    rewrite Hv. discriminate.
  - intros D hooks argc argv s this' k Hm Hk Ht Hmatch Hbefore.
    rewrite <- argv_at_skipn in Hmatch.
    pose proof (Hset (base (parser s)) (argc - i s)
                  (skipn (Z.to_nat (i s)) argv) Hmatch) as Hp.
    assert (Hr : snd (parseArg static_cast_T (base (parser s)) (Opt o)
                        (argc - i s) (skipn (Z.to_nat (i s)) argv))
                 <> Return 0)
      by (rewrite Hp; simpl; congruence).
    pose proof (scan_first_claimant static_cast_T hooks this'
                  (base (parser s)) (argc - i s)
                  (skipn (Z.to_nat (i s)) argv) (args (base (parser s)))
                  0%nat k (Opt o) Hk Ht Hr Hbefore) as Hscan.
    rewrite Hp in Hscan. cbn [fst snd] in Hscan.
    unfold step. rewrite Hm, Hscan.
    eexists; eexists; split; [reflexivity|].
    split; [reflexivity|].
    unfold slot_at. cbn [parser base args set_args].
    now rewrite nth_error_set_nth, Nat.eqb_refl, Hk.
  - intros D hooks fuel argv s k Hi Hk. unfold slot_at.
    now rewrite (loop_switch_stays_set static_cast_T hooks fuel argv s k
                   (Option_assign o (SBool true)) Hi Hk eq_refl).
Qed.

(** The switch [assemblyOut] of the sample parser: absent from [verbose],
    first token of the window [S x], reached by the loop at index 1 of
    [verbose S], and still set at the end of [verbose] when set before. *)
Lemma switch_parseArg_witness :
  let parser0 := Demo.SampleParser_ctor false false Ascii.zero in
  let o := Demo.assemblyOut false in
  slot_at 0 (reached (snd (Demo.main 3 false false Ascii.zero ["verbose"])))
  = Some (SBool false)
  /\ parseArg Demo.to_string (base parser0) (Opt o) 2 ["S"; "x"]
     = (Opt (Option_assign o (SBool true)), Return 1)
  /\ (exists evs s',
         step Demo.to_string (UnixParser_hooks string) 2 ["verbose"; "S"]
           (mkLoopState parser0 1) = (evs, Continue s')
         /\ i s' = 1 + 1
         /\ slot_at 0 (parser s') = Some (SBool true))
  /\ slot_at 0
       (reached
          (snd (loop Demo.to_string (UnixParser_hooks string) 3
                  (Z.of_nat (List.length ["verbose"])) ["verbose"]
                  (mkLoopState
                     (Demo.SampleParser_ctor true false Ascii.zero) 0))))
     = Some (SBool true).
Proof.
  intros parser0 o.
  destruct (switch_parseArg Demo.to_string o false eq_refl)
    as [Habsent [Hset [_ [Hloop Hstays]]]].
  split; [|split; [|split]].
  - apply (Habsent UnixParser_members (UnixParser_hooks string) 3%nat
             parser0 0%nat ["verbose"]); [reflexivity|].
    intros tok [<-|[]]; reflexivity.
  - apply (Hset (base parser0) 2 ["S"; "x"]). reflexivity.
  - apply (Hloop UnixParser_members (UnixParser_hooks string) 2
             ["verbose"; "S"] (mkLoopState parser0 1) (derived parser0)
             0%nat); try reflexivity.
    intros j c Hj. lia.
  - apply (Hstays UnixParser_members (UnixParser_hooks string) 3%nat
             ["verbose"]
             (mkLoopState (Demo.SampleParser_ctor true false Ascii.zero) 0)
             0%nat); [simpl; lia|reflexivity].
Defined.

(** ** The program name *)

(** The loop never changes [prgmName]. *)
Lemma loop_prgmName {T : Type} (static_cast_T : string -> T) {D : Type}
  (hooks : Hooks T D) (argc : Z) (argv : list string) :
  forall fuel (s : loop_state T D),
    prgmName (base (reached (snd (loop static_cast_T hooks fuel argc argv s))))
    = prgmName (base (parser s)).
Proof.
  induction fuel as [|fuel IH]; intros s; simpl.
  - now destruct (i s <? argc).
  - destruct (i s <? argc); [|reflexivity].
    pose proof (step_base static_cast_T hooks argc argv s) as [_ [_ Hn]].
    destruct (step static_cast_T hooks argc argv s) as [evs r].
    destruct r as [s'|e s']; simpl in *.
    + specialize (IH s').
      destruct (loop static_cast_T hooks fuel argc argv s') as [evs' r'].
      simpl in *. congruence.
    + exact Hn.
Qed.

(** Case analysis on the run of the loop, or on the scan, that the goal
    is waiting for. *)
Ltac case_loop :=
  match goal with
  | |- context [loop ?c ?h ?f ?n ?v ?s] =>
      let evs := fresh "evs" in
      let r := fresh "r" in
      destruct (loop c h f n v s) as [evs r]
  end.

Ltac case_scan :=
  match goal with
  | |- context [scan ?c ?h ?d ?p ?n ?v ?k ?l] =>
      let evs := fresh "evs" in
      let l' := fresh "args'" in
      let r := fresh "r" in
      destruct (scan c h d p n v k l) as [evs [l' r]]
  end.

(** C10.  With at least one token, [parse] stores [argv[0]] as the program
    name and then runs its first iteration at index 0, the same step as at
    any other index: the first call is [metaparser] on [argv[0]]; if that
    consumes the token the loop goes on at index 1, and if not, the
    descriptors are scanned on the window that begins with [argv[0]] and
    spans all [argc] tokens. *)
Theorem parse_offers_program_name {T : Type} (static_cast_T : string -> T)
  {D : Type} (hooks : Hooks T D) (fuel : nat) (parser0 : Parser T D)
  (argc : Z) (argv : list string) :
  0 < argc ->
  let parser1 :=
    mkParser (set_prgmName (base parser0) (argv_at argv 0))
      (derived parser0) in
  let run := parse static_cast_T hooks (S fuel) parser0 argc argv in
  prgmName (base (reached (snd run))) = argv_at argv 0
  /\ run
     = (let (evs, r) :=
          step static_cast_T hooks argc argv (mkLoopState parser1 0) in
        match r with
        | Continue s' =>
            let (evs', r') := loop static_cast_T hooks fuel argc argv s' in
            ((evs ++ evs')%list, r')
        | Raise e s' => (evs, Aborted e s')
        end)
  /\ (exists evs, fst run = EvMetaparser 0 (argv_at argv 0) :: evs)
  /\ (forall this',
         metaparser hooks (derived parser0) (argv_at argv 0) = (true, this') ->
         run
         = (let (evs', r') :=
              loop static_cast_T hooks fuel argc argv
                (mkLoopState (mkParser (base parser1) this') 1) in
            (EvMetaparser 0 (argv_at argv 0) :: evs', r')))
  /\ (forall this',
         metaparser hooks (derived parser0) (argv_at argv 0) = (false, this') ->
         exists evs,
           fst run
           = (EvMetaparser 0 (argv_at argv 0)
              :: fst (scan static_cast_T hooks this' (base parser1) argc argv
                        0 (args (base parser0))) ++ evs)%list).
Proof.
  intros Hc parser1 run.
  assert (Hrun : run
     = (let (evs, r) :=
          step static_cast_T hooks argc argv (mkLoopState parser1 0) in
        match r with
        | Continue s' =>
            let (evs', r') := loop static_cast_T hooks fuel argc argv s' in
            ((evs ++ evs')%list, r')
        | Raise e s' => (evs, Aborted e s')
        end)).
  { unfold run, parse. cbn [loop i]. apply Z.ltb_lt in Hc. now rewrite Hc. }
  split; [|split; [exact Hrun|split; [|split]]].
  - unfold run, parse. now rewrite loop_prgmName.
  - rewrite Hrun. unfold step. cbn [i parser].
    change (Z.to_nat 0) with 0%nat.
    change (derived parser1) with (derived parser0).
    destruct (metaparser hooks (derived parser0) (argv_at argv 0))
      as [consumed this'].
    destruct consumed.
    + case_loop.
      simpl. eauto.
    + case_scan.
      destruct r as [n|e].
      * case_loop.
        simpl. eauto.
      * simpl. eauto.
  - intros this' Hm. rewrite Hrun. unfold step. cbn [i parser].
    change (Z.to_nat 0) with 0%nat.
    change (derived parser1) with (derived parser0).
    rewrite Hm. reflexivity.
  - intros this' Hm. rewrite Hrun. unfold step. cbn [i parser].
    change (Z.to_nat 0) with 0%nat.
    change (derived parser1) with (derived parser0).
    rewrite Hm. rewrite Z.sub_0_r.
    change (skipn 0 argv) with argv.
    change (args (base parser1)) with (args (base parser0)).
    case_scan.
    destruct r as [n|e].
    + case_loop.
      simpl. eauto.
    + simpl. exists []. now rewrite app_nil_r.
Qed.

(** The sample parser started under the name [verbose]: the program name
    is taken for the switch of that name, which is set when [parse]
    returns. *)
Lemma parse_offers_program_name_witness :
  let parser0 := Demo.SampleParser_ctor false false Ascii.zero in
  let run := Demo.main 2 false false Ascii.zero ["verbose"] in
  (prgmName (base (reached (snd run))) = "verbose"
   /\ exists evs, fst run = EvMetaparser 0 "verbose" :: evs)
  /\ exists p, snd run = Done p /\ slot_at 1 p = Some (SBool true).
Proof.
  intros parser0 run. split.
  - destruct (parse_offers_program_name Demo.to_string
                (UnixParser_hooks string) 1 parser0 1 ["verbose"]
                ltac:(lia)) as [Hname [_ [Hfirst _]]].
    split; [exact Hname|exact Hfirst].
  - eexists. split; reflexivity.
Defined.

(** * Further properties of the engine *)

(** ** Flags *)

(** An option built by the short-name constructor has the empty long name,
    so besides its short form it is matched by the long prefix standing
    alone, whatever that prefix is; under the empty prefixes every parser of
    the source has, that is the empty token. *)
Theorem Option_short_matches_bare_long_prefix {T : Type}
  (parser : AbstractParser T) (s : ascii) (h : string) (value0 : slot T) :
  doesStrMatchOption parser (Option_short s h value0) (longOptPrefix parser)
  = true.
Proof.
  unfold doesStrMatchOption. simpl.
  assert (H : forall l : string,
             starts_with l l = true /\ substr l (String.length l) = "").
  { induction l as [|c l [IH1 IH2]]; simpl; [auto|].
    now rewrite Ascii.eqb_refl, IH1, IH2. }
  destruct (H (longOptPrefix parser)) as [-> ->].
  apply orb_true_r.
Qed.

(** Assigning a value to an option does not change which tokens it
    matches, and neither does a call of its [parseArg]. *)
Lemma parseArg_same_identity {T : Type} (static_cast_T : string -> T)
  (p : AbstractParser T) (a : AbstractArgument T) (argc : Z)
  (argv : list string) :
  same_identity a (fst (parseArg static_cast_T p a argc argv)).
Proof.
  destruct a as [q|o]; simpl; [reflexivity|].
  unfold Option_parseArg.
  destruct (doesStrMatchOption p o (argv_at argv 0)); simpl.
  - destruct (value o) eqn:Ev; simpl; rewrite ?Ev; simpl; auto 6.
    destruct (1 <? argc); simpl; rewrite ?Ev; simpl; auto 6.
  - destruct (value o); simpl; auto 6.
Qed.

Lemma same_identity_trans {T : Type} (a b c : AbstractArgument T) :
  same_identity a b -> same_identity b c -> same_identity a c.
Proof.
  destruct a as [p|o], b as [p'|o'], c as [p''|o'']; simpl;
    try tauto; try congruence.
  intros [H1 [H2 [H3 [H4 H5]]]] [G1 [G2 [G3 [G4 G5]]]].
  repeat split; try congruence.
  destruct (value o), (value o'), (value o''); simpl in *;
    try tauto; congruence.
Qed.

Lemma same_identity_match {T : Type} (p : AbstractParser T)
  (o o' : Option T) (str : string) :
  same_identity (Opt o) (Opt o') ->
  doesStrMatchOption p o' str = doesStrMatchOption p o str.
Proof.
  simpl. intros [_ [Hs [Hl _]]]. unfold doesStrMatchOption.
  now rewrite Hs, Hl.
Qed.

(** ** Registration *)

(** Descriptors that register one after the other end up in [args] behind
    those already there, in the order of their registration; nothing else
    of the parser changes.  The member registered as number [j] is found at
    position [length (args parser) + j]. *)
Theorem registration_keeps_declaration_order {T : Type}
  (members : list (AbstractArgument T)) :
  forall parser : AbstractParser T,
    args (fold_left addToParser members parser)
    = (args parser ++ members)%list
    /\ prgmName (fold_left addToParser members parser) = prgmName parser
    /\ shortOptPrefix (fold_left addToParser members parser)
       = shortOptPrefix parser
    /\ longOptPrefix (fold_left addToParser members parser)
       = longOptPrefix parser
    /\ (forall j,
           nth_error (args (fold_left addToParser members parser))
             (List.length (args parser) + j)
           = nth_error members j).
Proof.
  induction members as [|m members IH]; intros parser.
  - simpl. rewrite app_nil_r. repeat split.
    intros j. destruct j; simpl; apply nth_error_None; simpl; lia.
  - simpl. destruct (IH (addToParser parser m)) as [Ha [Hn [Hs [Hl Hj]]]].
    simpl in *. rewrite Ha, Hn, Hs, Hl, <- app_assoc. simpl.
    repeat split.
    intros j. rewrite nth_error_app2 by lia.
    replace (List.length (args parser) + j - List.length (args parser))%nat
      with j by lia.
    reflexivity.
Qed.

(** ** What parseArg throws *)

(** A [ParsingError] comes from a scalar option whose flag is the first
    token of a window without a second token; the message names the long
    name of the option, and the option is left as it was. *)
Lemma parseArg_throw {T : Type} (static_cast_T : string -> T)
  (p : AbstractParser T) (a : AbstractArgument T) (argc : Z)
  (argv : list string) (e : ParsingError) :
  snd (parseArg static_cast_T p a argc argv) = Throw e ->
  fst (parseArg static_cast_T p a argc argv) = a
  /\ argc <= 1
  /\ exists o x,
      a = Opt o /\ value o = SScalar x
      /\ doesStrMatchOption p o (argv_at argv 0) = true
      /\ e = expects_one_argument o.
Proof.
  destruct a as [q|o]; simpl; [discriminate|].
  unfold Option_parseArg.
  destruct (doesStrMatchOption p o (argv_at argv 0)) eqn:Em;
    [|discriminate].
  destruct (value o) eqn:Ev; simpl; try discriminate.
  destruct (1 <? argc) eqn:Ec; simpl; [discriminate|].
  intros [= <-]. apply Z.ltb_ge in Ec.
  repeat split; [exact Ec|]. exists o, x. auto.
Qed.

(** ** Repeated flags *)

(** A scalar option given twice keeps the value given last: a second
    matching window with a value overwrites what the first one stored. *)
Theorem scalar_option_last_write_wins {T : Type}
  (static_cast_T : string -> T) (parser : AbstractParser T) (o : Option T)
  (x : T) (argc1 argc2 : Z) (argv1 argv2 : list string) :
  value o = SScalar x ->
  doesStrMatchOption parser o (argv_at argv1 0) = true -> 1 < argc1 ->
  doesStrMatchOption parser o (argv_at argv2 0) = true -> 1 < argc2 ->
  parseArg static_cast_T parser
    (fst (parseArg static_cast_T parser (Opt o) argc1 argv1)) argc2 argv2
  = (Opt (Option_assign o (SScalar (static_cast_T (argv_at argv2 1)))),
     Return 2).
Proof.
  intros Hv H1 Hc1 H2 Hc2.
  apply Z.ltb_lt in Hc1, Hc2.
  assert (Hfirst : parseArg static_cast_T parser (Opt o) argc1 argv1
            = (Opt (Option_assign o
                      (SScalar (static_cast_T (argv_at argv1 1)))),
               Return 2)).
  { simpl. unfold Option_parseArg. now rewrite H1, Hv, Hc1. }
  rewrite Hfirst. simpl. unfold Option_parseArg.
  change (doesStrMatchOption parser
            (Option_assign o (SScalar (static_cast_T (argv_at argv1 1))))
            (argv_at argv2 0))
    with (doesStrMatchOption parser o (argv_at argv2 0)).
  rewrite H2. simpl. now rewrite Hc2.
Qed.

(** [outFilePath] given twice on one command line. *)
Lemma scalar_option_last_write_wins_witness :
  let parser := base (Demo.SampleParser_ctor false false Ascii.zero) in
  let out := Option_assign Demo.outFilePath (SScalar "a.out") in
  parseArg Demo.to_string parser
    (fst (parseArg Demo.to_string parser (Opt out) 4
            ["o"; "first"; "output"; "second"]))
    2 ["output"; "second"]
  = (Opt (Option_assign out (SScalar (Demo.to_string "second"))), Return 2).
Proof.
  intros parser out.
  apply (scalar_option_last_write_wins Demo.to_string parser out "a.out" 4 2
           ["o"; "first"; "output"; "second"] ["output"; "second"]);
    try reflexivity; lia.
Defined.

(** ** One iteration *)

Section IterationFacts.

Context {T : Type} (static_cast_T : string -> T).
Context {D : Type} (hooks : Hooks T D).

Lemma scan_length (this : D) (p : AbstractParser T) (argc : Z)
  (argv : list string) (l : list (AbstractArgument T)) :
  forall k0,
    List.length (fst (snd (scan static_cast_T hooks this p argc argv k0 l)))
    = List.length l.
Proof.
  induction l as [|b l IH]; intros k0; cbn [scan]; [reflexivity|].
  destruct (shouldTest hooks this b).
  - destruct (parseArg static_cast_T p b argc argv) as [b' r].
    destruct r as [n|e]; [|reflexivity].
    destruct (negb (n =? 0)); [reflexivity|].
    specialize (IH (S k0)). case_scan. simpl in *. now rewrite IH.
  - specialize (IH (S k0)). case_scan. simpl in *. now rewrite IH.
Qed.

(** The calls of a scan: on the window it was given, on descriptors of the
    list. *)
Lemma scan_events (this : D) (p : AbstractParser T) (argc : Z)
  (argv : list string) (l : list (AbstractArgument T)) :
  forall k0 ev,
    In ev (fst (scan static_cast_T hooks this p argc argv k0 l)) ->
    exists j, ev = EvParseArg j argc argv
              /\ (k0 <= j < k0 + List.length l)%nat.
Proof.
  induction l as [|b l IH]; intros k0 ev; cbn [scan]; [intros []|].
  assert (Hhead : exists j, EvParseArg k0 argc argv = EvParseArg j argc argv
                            /\ (k0 <= j < k0 + List.length (b :: l))%nat)
    by (exists k0; simpl; split; [reflexivity|lia]).
  assert (Htail : In ev (fst (scan static_cast_T hooks this p argc argv
                                (S k0) l)) ->
                  exists j, ev = EvParseArg j argc argv
                            /\ (k0 <= j < k0 + List.length (b :: l))%nat).
  { intros H. destruct (IH _ _ H) as [j [-> Hj]].
    exists j. simpl. split; [reflexivity|lia]. }
  destruct (shouldTest hooks this b).
  - destruct (parseArg static_cast_T p b argc argv) as [b' r].
    destruct r as [n|e].
    + destruct (negb (n =? 0)).
      * intros [<-|[]]. exact Hhead.
      * revert Htail. case_scan. simpl.
        intros Htail [<-|H]; [exact Hhead|now apply Htail].
    + intros [<-|[]]. exact Hhead.
  - revert Htail. case_scan. simpl. auto.
Qed.

(** A scan that advances by 0 has changed no descriptor. *)
Lemma scan_zero_unchanged (this : D) (p : AbstractParser T) (argc : Z)
  (argv : list string) (l : list (AbstractArgument T)) :
  forall k0,
    snd (snd (scan static_cast_T hooks this p argc argv k0 l)) = Return 0 ->
    fst (snd (scan static_cast_T hooks this p argc argv k0 l)) = l.
Proof.
  induction l as [|b l IH]; intros k0; cbn [scan]; [reflexivity|].
  destruct (shouldTest hooks this b).
  - pose proof (parseArg_zero_unchanged static_cast_T p b argc argv) as Hb.
    destruct (parseArg static_cast_T p b argc argv) as [b' r].
    destruct r as [n|e]; [|discriminate].
    destruct (n =? 0) eqn:E; simpl.
    + apply Z.eqb_eq in E. subst n. simpl in Hb.
      specialize (IH (S k0)). case_scan. simpl in *.
      intros H. now rewrite (IH H), (Hb eq_refl).
    + intros [= ->]. discriminate.
  - specialize (IH (S k0)). case_scan. simpl in *.
    intros H. now rewrite (IH H).
Qed.

(** A scan changes at most one descriptor, by that descriptor's own
    [parseArg]. *)
Lemma scan_changes_one (this : D) (p : AbstractParser T) (argc : Z)
  (argv : list string) (l : list (AbstractArgument T)) :
  forall k0,
    let l' := fst (snd (scan static_cast_T hooks this p argc argv k0 l)) in
    l' = l
    \/ exists k a,
        nth_error l k = Some a
        /\ shouldTest hooks this a = true
        /\ l' = set_nth k (fst (parseArg static_cast_T p a argc argv)) l.
Proof.
  induction l as [|b l IH]; intros k0; cbn [scan]; [now left|].
  destruct (shouldTest hooks this b) eqn:Et.
  - pose proof (parseArg_zero_unchanged static_cast_T p b argc argv) as Hb.
    destruct (parseArg static_cast_T p b argc argv) as [b' r] eqn:Ep.
    assert (Hhere : exists k a,
               nth_error (b :: l) k = Some a
               /\ shouldTest hooks this a = true
               /\ b' :: l
                  = set_nth k (fst (parseArg static_cast_T p a argc argv))
                      (b :: l)).
    { exists 0%nat, b. simpl. now rewrite Ep. }
    destruct r as [n|e]; [|right; exact Hhere].
    destruct (n =? 0) eqn:E; simpl; [|right; exact Hhere].
    apply Z.eqb_eq in E. subst n. simpl in Hb. rewrite (Hb eq_refl).
    specialize (IH (S k0)). case_scan. simpl in *.
    destruct IH as [->|[k [a [Hk [Ha ->]]]]]; [now left|].
    right. exists (S k), a. simpl. auto.
  - specialize (IH (S k0)). case_scan. simpl in *.
    destruct IH as [->|[k [a [Hk [Ha ->]]]]]; [now left|].
    right. exists (S k), a. simpl. auto.
Qed.

(** A scan that throws has changed nothing, and the exception is that of a
    scalar option of the list whose flag heads the window. *)
Lemma scan_throw (this : D) (p : AbstractParser T) (argc : Z)
  (argv : list string) (l : list (AbstractArgument T)) (e : ParsingError) :
  forall k0,
    snd (snd (scan static_cast_T hooks this p argc argv k0 l)) = Throw e ->
    fst (snd (scan static_cast_T hooks this p argc argv k0 l)) = l
    /\ argc <= 1
    /\ exists k o x,
        nth_error l k = Some (Opt o) /\ value o = SScalar x
        /\ shouldTest hooks this (Opt o) = true
        /\ doesStrMatchOption p o (argv_at argv 0) = true
        /\ e = expects_one_argument o.
Proof.
  induction l as [|b l IH]; intros k0; cbn [scan]; [discriminate|].
  assert (Htail :
    snd (snd (scan static_cast_T hooks this p argc argv (S k0) l)) = Throw e ->
    b :: fst (snd (scan static_cast_T hooks this p argc argv (S k0) l))
    = b :: l
    /\ argc <= 1
    /\ exists k o x,
        nth_error (b :: l) k = Some (Opt o) /\ value o = SScalar x
        /\ shouldTest hooks this (Opt o) = true
        /\ doesStrMatchOption p o (argv_at argv 0) = true
        /\ e = expects_one_argument o).
  { intros H. destruct (IH _ H) as [Hl [Hc [k [o [x Hk]]]]].
    rewrite Hl. repeat split; [exact Hc|]. exists (S k), o, x. exact Hk. }
  destruct (shouldTest hooks this b) eqn:Et.
  - pose proof (parseArg_zero_unchanged static_cast_T p b argc argv) as Hb.
    pose proof (parseArg_throw static_cast_T p b argc argv e) as Hthrow.
    destruct (parseArg static_cast_T p b argc argv) as [b' r].
    destruct r as [n|e'].
    + destruct (n =? 0) eqn:E; simpl; [|discriminate].
      apply Z.eqb_eq in E. subst n. simpl in Hb. rewrite (Hb eq_refl).
      revert Htail. case_scan. simpl. auto.
    + simpl. intros [= ->].
      destruct (Hthrow eq_refl) as [Hsame [Hc [o [x [-> [Hv [Hm He]]]]]]].
      simpl in Hsame. subst b'.
      repeat split; [exact Hc|]. exists 0%nat, o, x. simpl. auto.
  - revert Htail. case_scan. simpl. auto.
Qed.

End IterationFacts.

Section RunFacts.

Context {T : Type} (static_cast_T : string -> T).
Context {D : Type} (hooks : Hooks T D).

(** An iteration changes at most one descriptor, by that descriptor's own
    [parseArg] on the current window; all the others keep their slots.  The
    number of descriptors stays the same. *)
Lemma step_args (argc : Z) (argv : list string)
  (s : loop_state T D) :
  let s' := state_after (snd (step static_cast_T hooks argc argv s)) in
  List.length (args (base (parser s')))
  = List.length (args (base (parser s)))
  /\ (args (base (parser s')) = args (base (parser s))
      \/ exists k a,
          nth_error (args (base (parser s))) k = Some a
          /\ args (base (parser s'))
             = set_nth k
                 (fst (parseArg static_cast_T (base (parser s)) a
                         (argc - i s) (skipn (Z.to_nat (i s)) argv)))
                 (args (base (parser s)))).
Proof.
  unfold step.
  destruct (metaparser hooks (derived (parser s))
              (argv_at argv (Z.to_nat (i s)))) as [consumed this'].
  destruct consumed; simpl; [auto|].
  pose proof (scan_length static_cast_T hooks this' (base (parser s))
                (argc - i s) (skipn (Z.to_nat (i s)) argv)
                (args (base (parser s))) 0%nat) as Hlen.
  pose proof (scan_changes_one static_cast_T hooks this' (base (parser s))
                (argc - i s) (skipn (Z.to_nat (i s)) argv)
                (args (base (parser s))) 0%nat) as Hone.
  simpl in Hone.
  revert Hlen Hone. case_scan. simpl. intros Hlen Hone.
  assert (Hgoal :
    List.length args' = List.length (args (base (parser s)))
    /\ (args' = args (base (parser s))
        \/ exists k a,
            nth_error (args (base (parser s))) k = Some a
            /\ args'
               = set_nth k
                   (fst (parseArg static_cast_T (base (parser s)) a
                           (argc - i s) (skipn (Z.to_nat (i s)) argv)))
                   (args (base (parser s))))).
  { split; [exact Hlen|].
    destruct Hone as [->|[k [a [Hk [_ ->]]]]]; [now left|].
    right. now exists k, a. }
  destruct r; simpl; exact Hgoal.
Qed.

(** The iteration that throws: it has changed no descriptor, it is at the
    token at which it was entered, that token is the last one, and the
    exception is that of a scalar option whose flag is that token. *)
Lemma step_raise (argc : Z) (argv : list string) (s s' : loop_state T D)
  (e : ParsingError) :
  snd (step static_cast_T hooks argc argv s) = Raise e s' ->
  i s' = i s
  /\ args (base (parser s')) = args (base (parser s))
  /\ shortOptPrefix (base (parser s')) = shortOptPrefix (base (parser s))
  /\ longOptPrefix (base (parser s')) = longOptPrefix (base (parser s))
  /\ argc - i s <= 1
  /\ exists k o x,
      nth_error (args (base (parser s))) k = Some (Opt o)
      /\ value o = SScalar x
      /\ doesStrMatchOption (base (parser s)) o
           (argv_at argv (Z.to_nat (i s))) = true
      /\ e = expects_one_argument o.
Proof.
  unfold step.
  destruct (metaparser hooks (derived (parser s))
              (argv_at argv (Z.to_nat (i s)))) as [consumed this'].
  destruct consumed; simpl; [discriminate|].
  pose proof (scan_throw static_cast_T hooks this' (base (parser s))
                (argc - i s) (skipn (Z.to_nat (i s)) argv)
                (args (base (parser s))) e 0%nat) as Hthrow.
  revert Hthrow. case_scan. simpl. intros Hthrow.
  destruct r as [n|e']; simpl; [discriminate|].
  intros [= -> <-]. simpl.
  destruct (Hthrow eq_refl) as [Hl [Hc [k [o [x [Hk [Hv [_ [Hm He]]]]]]]]].
  rewrite argv_at_skipn in Hm.
  repeat split; auto. exists k, o, x. auto.
Qed.

(** [parse] throws only at the last token, for a scalar option whose flag
    that token is and which therefore lacks its value; the message is
    [Option <long name> expects one argument!].  The option is among the
    descriptors of the parser as the failing iteration found them. *)
Theorem loop_aborted_at_last_flag (argc : Z) (argv : list string) :
  forall fuel (s s' : loop_state T D) (e : ParsingError),
    0 <= i s <= argc ->
    snd (loop static_cast_T hooks fuel argc argv s) = Aborted e s' ->
    i s' = argc - 1
    /\ exists k o x,
        nth_error (args (base (parser s'))) k = Some (Opt o)
        /\ value o = SScalar x
        /\ doesStrMatchOption (base (parser s')) o
             (argv_at argv (Z.to_nat (i s'))) = true
        /\ e = expects_one_argument o.
Proof.
  induction fuel as [|fuel IH]; intros s s' e Hi; simpl.
  - destruct (i s <? argc); discriminate.
  - destruct (i s <? argc) eqn:E; [|discriminate].
    apply Z.ltb_lt in E.
    pose proof (step_index static_cast_T hooks argc argv s ltac:(lia)) as Hx.
    pose proof (step_raise argc argv s) as Hr.
    destruct (step static_cast_T hooks argc argv s) as [evs r].
    destruct r as [s1|e1 s1]; simpl in *.
    + specialize (IH s1 s' e ltac:(lia)).
      destruct (loop static_cast_T hooks fuel argc argv s1) as [evs' r'].
      simpl in *. exact IH.
    + intros [= -> ->].
      destruct (Hr s' e eq_refl)
        as [Hsame [Hargs [Hs [Hl [Hc [k [o [x [Hk [Hv [Hm He]]]]]]]]]]].
      split; [lia|].
      exists k, o, x. rewrite Hargs, Hsame.
      rewrite (doesStrMatchOption_ext (base (parser s')) (base (parser s)))
        by assumption.
      auto.
Qed.

(** A parser without scalar options never throws. *)
Theorem no_scalar_option_no_error (argc : Z) (argv : list string)
  (fuel : nat) (s : loop_state T D) :
  0 <= i s <= argc ->
  (forall k o x, nth_error (args (base (parser s))) k = Some (Opt o) ->
                 value o <> SScalar x) ->
  forall e s', snd (loop static_cast_T hooks fuel argc argv s)
               <> Aborted e s'.
Proof.
  intros Hi Hnone. revert s Hi Hnone.
  induction fuel as [|fuel IH]; intros s Hi Hnone e s'; simpl.
  - destruct (i s <? argc); discriminate.
  - destruct (i s <? argc) eqn:E; [|discriminate].
    apply Z.ltb_lt in E.
    pose proof (step_index static_cast_T hooks argc argv s ltac:(lia)) as Hx.
    pose proof (step_raise argc argv s) as Hr.
    pose proof (step_args argc argv s) as [_ Hone].
    destruct (step static_cast_T hooks argc argv s) as [evs r].
    destruct r as [s1|e1 s1]; simpl in *.
    + assert (Hnone1 : forall k o x,
                 nth_error (args (base (parser s1))) k = Some (Opt o) ->
                 value o <> SScalar x).
      { destruct Hone as [->|[j [a [Hj ->]]]]; [exact Hnone|].
        intros k o x Hk Hv. rewrite nth_error_set_nth in Hk.
        destruct (Nat.eqb k j) eqn:Ekj; [|now apply (Hnone k o x)].
        apply Nat.eqb_eq in Ekj. subst k. rewrite Hj in Hk.
        injection Hk as Hk.
        pose proof (parseArg_same_identity static_cast_T (base (parser s)) a
                      (argc - i s) (skipn (Z.to_nat (i s)) argv)) as Hid.
        rewrite Hk in Hid. destruct a as [q|o0]; simpl in Hid; [easy|].
        destruct Hid as [_ [_ [_ [_ Hkind]]]].
        rewrite Hv in Hkind.
        destruct (value o0) eqn:Ev0; simpl in Hkind; try easy.
        now apply (Hnone j o0 x0). }
      specialize (IH s1 ltac:(lia) Hnone1 e s').
      destruct (loop static_cast_T hooks fuel argc argv s1) as [evs' r'].
      exact IH.
    + intros [= -> ->].
      destruct (Hr s' e eq_refl)
        as [_ [_ [_ [_ [_ [k [o [x [Hk [Hv _]]]]]]]]]].
      now apply (Hnone k o x).
Qed.

End RunFacts.

(** ** Termination *)

(** A scan that advances by 0 was declined by every descriptor it was
    allowed to try. *)
Lemma scan_zero_all_decline {T : Type} (static_cast_T : string -> T)
  {D : Type} (hooks : Hooks T D) (this : D) (p : AbstractParser T)
  (argc : Z) (argv : list string) (l : list (AbstractArgument T)) :
  forall k0,
    snd (snd (scan static_cast_T hooks this p argc argv k0 l)) = Return 0 ->
    forall b, In b l -> shouldTest hooks this b = true ->
              snd (parseArg static_cast_T p b argc argv) = Return 0.
Proof.
  induction l as [|a l IH]; intros k0; cbn [scan]; [intros _ b []|].
  destruct (shouldTest hooks this a) eqn:Et.
  - destruct (parseArg static_cast_T p a argc argv) as [a' r] eqn:Ep.
    destruct r as [n|e]; [|discriminate].
    destruct (n =? 0) eqn:E; simpl.
    + apply Z.eqb_eq in E. subst n.
      specialize (IH (S k0)). revert IH. case_scan. simpl.
      intros IH H b [<-|Hb] Hb'.
      * now rewrite Ep.
      * now apply IH.
    + intros [= ->]. discriminate.
  - specialize (IH (S k0)). revert IH. case_scan. simpl.
    intros IH H b [<-|Hb] Hb'; [congruence|now apply IH].
Qed.

Section Termination.

Context {T : Type} (static_cast_T : string -> T).
Context {D : Type} (hooks : Hooks T D).

(** [metaparser] changes the parser only when it consumes the token; both
    parsers of the source are like that. *)
Hypothesis metaparser_quiet :
  forall this arg this',
    metaparser hooks this arg = (false, this') -> this' = this.

(** An iteration that does not move the index has changed nothing. *)
Lemma step_fixed (argc : Z) (argv : list string) (s s' : loop_state T D) :
  snd (step static_cast_T hooks argc argv s) = Continue s' ->
  i s' = i s -> s' = s.
Proof.
  unfold step.
  destruct (metaparser hooks (derived (parser s))
              (argv_at argv (Z.to_nat (i s)))) as [consumed this'] eqn:Em.
  destruct consumed; simpl.
  - intros [= <-]. simpl. lia.
  - apply metaparser_quiet in Em. subst this'.
    pose proof (scan_zero_unchanged static_cast_T hooks
                  (derived (parser s)) (base (parser s)) (argc - i s)
                  (skipn (Z.to_nat (i s)) argv) (args (base (parser s)))
                  0%nat) as Hz.
    revert Hz. case_scan. simpl. intros Hz.
    destruct r as [n|e]; simpl; [|discriminate].
    intros [= <-]. simpl. intros Hn.
    assert (n = 0) by lia. subst n.
    rewrite (Hz eq_refl).
    destruct s as [[[name l sp lp] d] m]; simpl. now rewrite Z.add_0_r.
Qed.

(** What a state that an iteration maps to itself looks like: the token is
    not consumed by [metaparser] and every descriptor that may be tried
    declines it. *)
Lemma step_fixed_inv (argc : Z) (argv : list string) (s : loop_state T D) :
  snd (step static_cast_T hooks argc argv s) = Continue s ->
  fst (metaparser hooks (derived (parser s)) (argv_at argv (Z.to_nat (i s))))
  = false
  /\ forall b, In b (args (base (parser s))) ->
       shouldTest hooks (derived (parser s)) b = true ->
       snd (parseArg static_cast_T (base (parser s)) b (argc - i s)
              (skipn (Z.to_nat (i s)) argv)) = Return 0.
Proof.
  unfold step.
  destruct (metaparser hooks (derived (parser s))
              (argv_at argv (Z.to_nat (i s)))) as [consumed this'] eqn:Em.
  destruct consumed; simpl.
  - intros [= H]. apply (f_equal i) in H. simpl in H. lia.
  - apply metaparser_quiet in Em. subst this'.
    pose proof (scan_zero_all_decline static_cast_T hooks
                  (derived (parser s)) (base (parser s)) (argc - i s)
                  (skipn (Z.to_nat (i s)) argv) (args (base (parser s)))
                  0%nat) as Hz.
    revert Hz. case_scan. simpl. intros Hz.
    destruct r as [n|e]; simpl; [|discriminate].
    intros [= H]. apply (f_equal i) in H. simpl in H.
    assert (n = 0) by lia. subst n.
    split; [reflexivity|]. exact (Hz eq_refl).
Qed.

(** A state that an iteration maps to itself is never left. *)
Lemma loop_stuck (argc : Z) (argv : list string) (s : loop_state T D) :
  i s < argc ->
  snd (step static_cast_T hooks argc argv s) = Continue s ->
  forall fuel,
    snd (loop static_cast_T hooks fuel argc argv s) = OutOfFuel s.
Proof.
  intros Hi Hs fuel. apply Z.ltb_lt in Hi.
  induction fuel as [|fuel IH]; simpl; rewrite Hi; [reflexivity|].
  destruct (step static_cast_T hooks argc argv s) as [evs r].
  simpl in Hs. subst r. case_loop. exact IH.
Qed.

(** Given as many iterations as there are tokens left, the loop has come
    to its end, by returning or by throwing, unless it sits at a token that
    nothing consumes, in a state that every further iteration reproduces. *)
Theorem loop_ends_or_is_stuck (argc : Z) (argv : list string) :
  forall fuel (s : loop_state T D),
    0 <= i s <= argc ->
    (Z.to_nat (argc - i s) <= fuel)%nat ->
    match snd (loop static_cast_T hooks fuel argc argv s) with
    | Done _ => True
    | Aborted _ _ => True
    | OutOfFuel s' =>
        i s' < argc
        /\ fst (metaparser hooks (derived (parser s'))
                  (argv_at argv (Z.to_nat (i s')))) = false
        /\ (forall b, In b (args (base (parser s'))) ->
              shouldTest hooks (derived (parser s')) b = true ->
              snd (parseArg static_cast_T (base (parser s')) b (argc - i s')
                     (skipn (Z.to_nat (i s')) argv)) = Return 0)
        /\ forall fuel',
            snd (loop static_cast_T hooks fuel' argc argv s') = OutOfFuel s'
    end.
Proof.
  induction fuel as [|fuel IH]; intros s Hi Hf; simpl.
  - destruct (i s <? argc) eqn:E; [|exact I].
    apply Z.ltb_lt in E. lia.
  - destruct (i s <? argc) eqn:E; [|exact I].
    apply Z.ltb_lt in E.
    pose proof (step_index static_cast_T hooks argc argv s ltac:(lia)) as Hx.
    pose proof (step_fixed argc argv s) as Hfix.
    pose proof (step_fixed_inv argc argv s) as Hinv.
    pose proof (loop_stuck argc argv s E) as Hstuck.
    destruct (step static_cast_T hooks argc argv s) as [evs r].
    destruct r as [s1|e1 s1]; simpl in *; [|exact I].
    destruct (Z.eq_dec (i s1) (i s)) as [Heq|Hneq].
    + pose proof (Hfix s1 eq_refl Heq). subst s1.
      destruct (Hinv eq_refl) as [Hm Hd].
      specialize (Hstuck eq_refl).
      pose proof (Hstuck fuel) as Hnow.
      case_loop. simpl in Hnow. subst r.
      repeat split; assumption.
    + specialize (IH s1 ltac:(lia) ltac:(lia)).
      case_loop. exact IH.
Qed.

End Termination.

Lemma UnixParser_metaparser_quiet (this : UnixParser_members)
  (arg : string) (this' : UnixParser_members) :
  UnixParser_metaparser this arg = (false, this') -> this' = this.
Proof.
  unfold UnixParser_metaparser.
  destruct (String.eqb arg "--"); [discriminate|]. now intros [= <-].
Qed.

(** For a [UnixParser] and an [argv] of [argc] tokens, [argc] iterations
    are enough: after them [parse] has returned or thrown, or it is caught
    for good at a token that is not [--] and that every descriptor
    declines. *)
Theorem UnixParser_parse_ends_or_is_stuck {T : Type}
  (static_cast_T : string -> T) (parser0 : UnixParser T)
  (argv : list string) (fuel : nat) :
  (List.length argv <= fuel)%nat ->
  match snd (parse static_cast_T (UnixParser_hooks T) fuel parser0
               (Z.of_nat (List.length argv)) argv) with
  | Done _ => True
  | Aborted _ _ => True
  | OutOfFuel s' =>
      0 <= i s' < Z.of_nat (List.length argv)
      /\ argv_at argv (Z.to_nat (i s')) <> "--"
      /\ (forall b, In b (args (base (parser s'))) ->
                    snd (parseArg static_cast_T (base (parser s')) b
                           (Z.of_nat (List.length argv) - i s')
                           (skipn (Z.to_nat (i s')) argv)) = Return 0)
      /\ forall fuel',
          snd (loop static_cast_T (UnixParser_hooks T) fuel'
                 (Z.of_nat (List.length argv)) argv s') = OutOfFuel s'
  end.
Proof.
  intros Hf. unfold parse.
  set (s0 := mkLoopState _ 0).
  pose proof (loop_ends_or_is_stuck static_cast_T (UnixParser_hooks T)
                UnixParser_metaparser_quiet (Z.of_nat (List.length argv))
                argv fuel s0 ltac:(simpl; lia) ltac:(simpl; lia)) as H.
  pose proof (loop_index_bounds static_cast_T (UnixParser_hooks T)
                (Z.of_nat (List.length argv)) argv fuel s0
                ltac:(simpl; lia)) as Hb.
  destruct (snd (loop static_cast_T (UnixParser_hooks T) fuel
                   (Z.of_nat (List.length argv)) argv s0))
    as [p|e s'|s']; try exact I.
  simpl in Hb. destruct H as [Hi [Hmeta [Hdecl Hforever]]].
  split; [lia|]. split; [|split; [|exact Hforever]].
  - simpl in Hmeta. unfold UnixParser_metaparser in Hmeta.
    destruct (String.eqb (argv_at argv (Z.to_nat (i s'))) "--") eqn:E;
      [discriminate|].
    now apply String.eqb_neq.
  - intros b Hb'. apply Hdecl; [exact Hb'|].
    simpl. unfold UnixParser_shouldTest. now rewrite andb_false_r.
Qed.

(** ** What a parse leaves alone *)

Lemma Forall2_same_identity_refl {T : Type} (l : list (AbstractArgument T)) :
  Forall2 same_identity l l.
Proof.
  induction l as [|a l IH]; constructor; [|exact IH].
  destruct a as [p|o]; simpl; [reflexivity|].
  repeat split. destruct (value o); simpl; auto.
Qed.

Lemma Forall2_same_identity_trans {T : Type}
  (l1 l2 l3 : list (AbstractArgument T)) :
  Forall2 same_identity l1 l2 -> Forall2 same_identity l2 l3 ->
  Forall2 same_identity l1 l3.
Proof.
  intros H. revert l3.
  induction H as [|a b l1 l2 Hab H IH]; intros l3 H3;
    inversion H3; subst; constructor.
  - eapply same_identity_trans; eassumption.
  - now apply IH.
Qed.

Lemma Forall2_same_identity_set_nth {T : Type}
  (l : list (AbstractArgument T)) :
  forall k a a',
    nth_error l k = Some a -> same_identity a a' ->
    Forall2 same_identity l (set_nth k a' l).
Proof.
  induction l as [|b l IH]; intros [|k] a a' Hk Ha; simpl in *;
    try discriminate.
  - injection Hk as ->. constructor; [exact Ha|].
    apply Forall2_same_identity_refl.
  - constructor; [|now apply (IH k a a')].
    pose proof (Forall2_same_identity_refl [b]) as H. now inversion H.
Qed.

Section Preservation.

Context {T : Type} (static_cast_T : string -> T).
Context {D : Type} (hooks : Hooks T D).

Lemma step_same_identity (argc : Z) (argv : list string)
  (s : loop_state T D) :
  Forall2 same_identity (args (base (parser s)))
    (args (base (parser (state_after
                           (snd (step static_cast_T hooks argc argv s)))))).
Proof.
  destruct (step_args static_cast_T hooks argc argv s)
    as [_ [->|[k [a [Hk ->]]]]].
  - apply Forall2_same_identity_refl.
  - apply (Forall2_same_identity_set_nth _ k a); [exact Hk|].
    apply parseArg_same_identity.
Qed.

(** Parsing never adds, drops or reorders descriptors, and never changes
    anything of a descriptor but the contents of a [bool] or scalar slot:
    at every position the parser holds, wherever the run gets to, a
    descriptor of the same class with the same help text, names and kind of
    slot as at the start; vector and optional slots keep their contents. *)
Theorem loop_keeps_descriptors (argc : Z) (argv : list string) :
  forall fuel (s : loop_state T D),
    Forall2 same_identity (args (base (parser s)))
      (args (base (reached
                     (snd (loop static_cast_T hooks fuel argc argv s))))).
Proof.
  induction fuel as [|fuel IH]; intros s; simpl.
  - destruct (i s <? argc); simpl; apply Forall2_same_identity_refl.
  - destruct (i s <? argc); simpl; [|apply Forall2_same_identity_refl].
    pose proof (step_same_identity argc argv s) as Hs.
    destruct (step static_cast_T hooks argc argv s) as [evs r].
    destruct r as [s1|e s1]; simpl in *; [|exact Hs].
    specialize (IH s1). case_loop. simpl in *.
    eapply Forall2_same_identity_trans; eassumption.
Qed.

(** An iteration leaves all descriptors but one as they were. *)
Theorem step_touches_one_descriptor (argc : Z) (argv : list string)
  (s : loop_state T D) :
  exists k,
    forall j, j <> k ->
      nth_error
        (args (base (parser (state_after
                               (snd (step static_cast_T hooks argc argv
                                       s)))))) j
      = nth_error (args (base (parser s))) j.
Proof.
  destruct (step_args static_cast_T hooks argc argv s)
    as [_ [->|[k [a [Hk ->]]]]].
  - now exists 0%nat.
  - exists k. intros j Hj. rewrite nth_error_set_nth.
    apply Nat.eqb_neq in Hj. now rewrite Hj.
Qed.

(** The members the derived class added are changed by [metaparser] only:
    a property of them that [metaparser] keeps on the tokens of [argv]
    holds wherever the run gets to. *)
Lemma step_derived (argc : Z) (argv : list string) (s : loop_state T D) :
  derived (parser (state_after (snd (step static_cast_T hooks argc argv s))))
  = snd (metaparser hooks (derived (parser s))
           (argv_at argv (Z.to_nat (i s)))).
Proof.
  unfold step.
  destruct (metaparser hooks (derived (parser s))
              (argv_at argv (Z.to_nat (i s)))) as [consumed this'].
  destruct consumed; simpl; [reflexivity|].
  case_scan. destruct r; reflexivity.
Qed.

Lemma loop_derived_frame (R : D -> Prop) (argv : list string) :
  (forall this tok, In tok argv -> R this ->
                    R (snd (metaparser hooks this tok))) ->
  forall fuel (s : loop_state T D),
    0 <= i s ->
    R (derived (parser s)) ->
    R (derived (reached (snd (loop static_cast_T hooks fuel
                                (Z.of_nat (List.length argv)) argv s)))).
Proof.
  intros Hkeep.
  induction fuel as [|fuel IH]; intros s Hi HR; simpl.
  - now destruct (i s <? _).
  - destruct (i s <? Z.of_nat (List.length argv)) eqn:E; [|exact HR].
    apply Z.ltb_lt in E.
    pose proof (step_index static_cast_T hooks (Z.of_nat (List.length argv))
                  argv s ltac:(lia)) as Hx.
    pose proof (step_derived (Z.of_nat (List.length argv)) argv s) as Hd.
    assert (HR1 : R (snd (metaparser hooks (derived (parser s))
                            (argv_at argv (Z.to_nat (i s)))))).
    { apply Hkeep; [|exact HR]. apply argv_at_In. lia. }
    rewrite <- Hd in HR1.
    destruct (step static_cast_T hooks (Z.of_nat (List.length argv)) argv s)
      as [evs r].
    destruct r as [s1|e s1]; simpl in *; [|exact HR1].
    specialize (IH s1 ltac:(lia) HR1). case_loop. exact IH.
Qed.

End Preservation.

(** ** The mode of a UnixParser *)

(** Over a run of a [UnixParser]: the members [shortOptPrefix] and
    [longOptPrefix] it declares keep their values; [parseOptions], once
    false, stays false; and when no token of [argv] is [--], none of its
    members changes, so a [parseOptions] that has changed shows that [--]
    is among the tokens. *)
Theorem UnixParser_mode {T : Type} (static_cast_T : string -> T)
  (fuel : nat) (argv : list string) (s : loop_state T UnixParser_members) :
  0 <= i s ->
  let this' :=
    derived (reached (snd (loop static_cast_T (UnixParser_hooks T) fuel
                             (Z.of_nat (List.length argv)) argv s))) in
  UnixParser_shortOptPrefix this'
  = UnixParser_shortOptPrefix (derived (parser s))
  /\ UnixParser_longOptPrefix this'
     = UnixParser_longOptPrefix (derived (parser s))
  /\ (parseOptions (derived (parser s)) = false ->
      parseOptions this' = false)
  /\ (~ In "--" argv -> this' = derived (parser s))
  /\ (parseOptions this' <> parseOptions (derived (parser s)) ->
      In "--" argv).
Proof.
  intros Hi this'.
  assert (Hno : ~ In "--" argv -> this' = derived (parser s)).
  { intros Hnot.
    apply (loop_derived_frame static_cast_T (UnixParser_hooks T)
             (fun d => d = derived (parser s)) argv); auto.
    intros this tok Htok ->. simpl. unfold UnixParser_metaparser.
    destruct (String.eqb tok "--") eqn:E; [|reflexivity].
    apply String.eqb_eq in E. subst tok. contradiction. }
  split; [|split; [|split; [|split]]].
  - apply (loop_derived_frame static_cast_T (UnixParser_hooks T)
             (fun d => UnixParser_shortOptPrefix d
                       = UnixParser_shortOptPrefix (derived (parser s)))
             argv); auto.
    intros this tok _ H. simpl. unfold UnixParser_metaparser.
    now destruct (String.eqb tok "--").
  - apply (loop_derived_frame static_cast_T (UnixParser_hooks T)
             (fun d => UnixParser_longOptPrefix d
                       = UnixParser_longOptPrefix (derived (parser s)))
             argv); auto.
    intros this tok _ H. simpl. unfold UnixParser_metaparser.
    now destruct (String.eqb tok "--").
  - intros Hoff.
    apply (loop_derived_frame static_cast_T (UnixParser_hooks T)
             (fun d => parseOptions d = false) argv); auto.
    intros this tok _ H. simpl. unfold UnixParser_metaparser.
    now destruct (String.eqb tok "--").
  - exact Hno.
  - intros Hchanged.
    destruct (in_dec string_dec "--" argv) as [Hin|Hnot]; [exact Hin|].
    exfalso. apply Hchanged. now rewrite (Hno Hnot).
Qed.

(** The sample parser on [S -- verbose]: the mode is off at the end. *)
Lemma UnixParser_mode_witness :
  let s := mkLoopState (Demo.SampleParser_ctor false false Ascii.zero) 0 in
  let this' :=
    derived (reached (snd (loop Demo.to_string (UnixParser_hooks string) 4
                             (Z.of_nat (List.length ["S"; "--"; "verbose"]))
                             ["S"; "--"; "verbose"] s))) in
  parseOptions this' = false
  /\ UnixParser_shortOptPrefix this' = "-"
  /\ UnixParser_longOptPrefix this' = "--"
  /\ In "--" ["S"; "--"; "verbose"].
Proof.
  intros s this'.
  destruct (UnixParser_mode Demo.to_string 4 ["S"; "--"; "verbose"] s
              ltac:(simpl; lia)) as [Hs [Hl [_ [_ Hin]]]].
  split; [reflexivity|]. split; [exact Hs|]. split; [exact Hl|].
  apply Hin. discriminate.
Defined.

(** ** The calls the loop makes *)

Section Calls.

Context {T : Type} (static_cast_T : string -> T).
Context {D : Type} (hooks : Hooks T D).

Lemma step_calls_wellformed (argv : list string) (s : loop_state T D) :
  0 <= i s < Z.of_nat (List.length argv) ->
  Forall (event_wellformed (List.length (args (base (parser s)))) argv)
    (fst (step static_cast_T hooks (Z.of_nat (List.length argv)) argv s)).
Proof.
  intros Hi.
  assert (Hmeta : event_wellformed (List.length (args (base (parser s))))
                    argv
                    (EvMetaparser (i s) (argv_at argv (Z.to_nat (i s))))).
  { simpl. split; [exact Hi|]. split; [reflexivity|].
    apply argv_at_In. lia. }
  unfold step.
  destruct (metaparser hooks (derived (parser s))
              (argv_at argv (Z.to_nat (i s)))) as [consumed this'].
  destruct consumed; simpl; [now constructor|].
  pose proof (scan_events static_cast_T hooks this' (base (parser s))
                (Z.of_nat (List.length argv) - i s)
                (skipn (Z.to_nat (i s)) argv) (args (base (parser s)))
                0%nat) as Hev.
  revert Hev. case_scan. simpl. intros Hev.
  assert (Hscan : Forall (event_wellformed
                            (List.length (args (base (parser s)))) argv)
                    evs).
  { apply Forall_forall. intros ev Hin.
    destruct (Hev ev Hin) as [j [-> Hj]]. simpl.
    split; [lia|]. split; [lia|]. split.
    - rewrite length_skipn. lia.
    - exists (Z.to_nat (i s)). split; [lia|reflexivity]. }
  destruct r; simpl; constructor; assumption.
Qed.

(** Every call the loop makes is in bounds: [metaparser] is given a token
    of [argv]; [parseArg] is called on a registered descriptor with a
    window that is a non-empty suffix of [argv] and with exactly the number
    of tokens of that window as [argc], so that [argv[0]], and [argv[1]]
    behind [argc > 1], are tokens of the command line. *)
Theorem parse_calls_wellformed (fuel : nat) (parser0 : Parser T D)
  (argv : list string) :
  Forall (event_wellformed (List.length (args (base parser0))) argv)
    (fst (parse static_cast_T hooks fuel parser0
            (Z.of_nat (List.length argv)) argv)).
Proof.
  unfold parse.
  set (s0 := mkLoopState _ 0).
  change (List.length (args (base parser0)))
    with (List.length (args (base (parser s0)))).
  assert (Hi : 0 <= i s0 <= Z.of_nat (List.length argv)) by (simpl; lia).
  clearbody s0. revert s0 Hi.
  induction fuel as [|fuel IH]; intros s Hi; simpl.
  - destruct (i s <? _); constructor.
  - destruct (i s <? Z.of_nat (List.length argv)) eqn:E; [|constructor].
    apply Z.ltb_lt in E.
    pose proof (step_calls_wellformed argv s ltac:(lia)) as Hs.
    pose proof (step_index static_cast_T hooks (Z.of_nat (List.length argv))
                  argv s ltac:(lia)) as Hx.
    pose proof (step_args static_cast_T hooks (Z.of_nat (List.length argv))
                  argv s) as [Hlen _].
    destruct (step static_cast_T hooks (Z.of_nat (List.length argv)) argv s)
      as [evs r].
    destruct r as [s1|e s1]; simpl in *; [|exact Hs].
    specialize (IH s1 ltac:(lia)). rewrite Hlen in IH.
    case_loop. simpl in *.
    apply Forall_app. split; assumption.
Qed.

End Calls.

(** ** Instances *)

(** The switch [verbose] matches the token [version] by its short name. *)
Lemma doesStrMatchOption_iff_witness :
  doesStrMatchOption (base (Demo.SampleParser_ctor false false Ascii.zero))
    (Demo.verbose false) "version" = true.
Proof.
  apply (proj2 (doesStrMatchOption_iff
                  (base (Demo.SampleParser_ctor false false Ascii.zero))
                  (Demo.verbose false) "version")).
  left. exists "version". split; reflexivity.
Defined.

(** The sample parser on [S o]: the flag [o] is the last token. *)
Lemma loop_aborted_at_last_flag_witness :
  let s := mkLoopState (Demo.SampleParser_ctor false false Ascii.zero) 0 in
  exists e s',
    snd (loop Demo.to_string (UnixParser_hooks string) 3 2 ["S"; "o"] s)
    = Aborted e s'
    /\ e = mkParsingError "Option output expects one argument!"
    /\ i s' = 2 - 1
    /\ exists k o x,
        nth_error (args (base (parser s'))) k = Some (Opt o)
        /\ value o = SScalar x
        /\ doesStrMatchOption (base (parser s')) o
             (argv_at ["S"; "o"] (Z.to_nat (i s'))) = true
        /\ e = expects_one_argument o.
Proof.
  intros s. eexists. eexists.
  split; [reflexivity|]. split; [reflexivity|].
  apply (loop_aborted_at_last_flag Demo.to_string (UnixParser_hooks string)
           2 ["S"; "o"] 3 s); [simpl; lia|reflexivity].
Defined.

(** A parser that declares the two switches of the sample parser and
    nothing else. *)
Lemma no_scalar_option_no_error_witness :
  let parser0 :=
    mkParser
      (fold_left addToParser
         [Opt (Demo.assemblyOut false); Opt (Demo.verbose false)]
         (base (UnixParser_ctor string)))
      (derived (UnixParser_ctor string)) in
  (exists p,
      snd (loop Demo.to_string (UnixParser_hooks string) 5 3
             ["S"; "verbose"; "S"] (mkLoopState parser0 0)) = Done p)
  /\ (forall e s',
         snd (loop Demo.to_string (UnixParser_hooks string) 5 3
                ["S"; "verbose"; "S"] (mkLoopState parser0 0))
         <> Aborted e s').
Proof.
  intros parser0. split; [eexists; reflexivity|].
  apply (no_scalar_option_no_error Demo.to_string (UnixParser_hooks string)
           3 ["S"; "verbose"; "S"] 5 (mkLoopState parser0 0)).
  - simpl. lia.
  - intros k o x Hk.
    destruct k as [|[|[|k]]]; simpl in Hk; try discriminate;
      injection Hk as <-; discriminate.
Defined.

(** The sample parser with enough iterations for its three tokens: on
    [S verbose S] it returns, on [S input.c S] it is caught at [input.c]. *)
Lemma UnixParser_parse_ends_or_is_stuck_witness :
  (exists p, snd (Demo.main 3 false false Ascii.zero ["S"; "verbose"; "S"])
             = Done p)
  /\ match snd (Demo.main 3 false false Ascii.zero ["S"; "input.c"; "S"])
     with
     | OutOfFuel s' =>
         i s' = 1
         /\ forall fuel',
             snd (loop Demo.to_string (UnixParser_hooks string) fuel' 3
                    ["S"; "input.c"; "S"] s') = OutOfFuel s'
     | _ => False
     end.
Proof.
  split; [eexists; reflexivity|].
  pose proof (UnixParser_parse_ends_or_is_stuck Demo.to_string
                (Demo.SampleParser_ctor false false Ascii.zero)
                ["S"; "input.c"; "S"] 3 ltac:(simpl; lia)) as H.
  unfold Demo.main.
  destruct (snd (parse Demo.to_string (UnixParser_hooks string) 3
                   (Demo.SampleParser_ctor false false Ascii.zero)
                   (Z.of_nat (List.length ["S"; "input.c"; "S"]))
                   ["S"; "input.c"; "S"])) as [p|e s'|s'] eqn:E;
    try discriminate E.
  destruct H as [_ [_ [_ Hforever]]].
  split; [|exact Hforever].
  injection E as <-. reflexivity.
Defined.
